(** * The Universal Machine (UM-32) of [pkg/um/um.go]

    A shallow embedding of the interpreter: the machine record, the loaders
    [LoadProgram] and [LoadFromBackup], the checkpointer [backup]/[doBackup]
    and one iteration of the dispatch loop of [spin].

    Conventions.
    - A [platter] (Go [uint32]) is an [N]; every arithmetic result is wrapped
      with [wrap32].  [ExFinger] (Go [int], taken to be 64 bits wide) is a [Z]:
      the loop adds one to an index of the program it has just read and
      stores a platter in it, which never leaves the range of an [int]; the
      decrement of [LoadFromBackup] meets whatever was decoded and wraps
      ([wrap_int]).
    - Go slices are references.  The backing arrays live in the field
      [arrays] of the machine, a slice value is the address ([loc]) of its
      backing array, the nil slice is [None].  The code never re-slices, so
      the length of a slice is the length of its backing array.
    - A Go run-time panic (index out of range, division by zero) is the
      outcome [Panic].
    - What the environment answers during one loop iteration (the console
      read, the clock, the file system) is the argument [Env] of [spin_step].
    - The Go libraries the code calls are modelled by what they do to the
      values passed: [ioutil.ReadAll] gives the bytes of a stream or an error,
      [binary.Read] reads big-endian platters and fails on a short buffer,
      [encoding/gob] transmits the exported fields of the machine ([gob_encode])
      and stores what was transmitted into the destination ([gob_decode]),
      [time.Since] is a saturating difference of nanoseconds. *)

From Stdlib Require Import NArith ZArith Lia List.
From Stdlib Require Import Strings.Byte.
From stdpp Require Import base option list vector gmap strings.

Local Open Scope N_scope.

#[local] Set Warnings "-clear-no-such-hyp".

(** ** Platters *)

Abbreviation platter := N (only parsing).

Definition wrap32 (n : N) : platter := n mod 2 ^ 32.

(** [^x] on a [uint32]. *)
Definition not32 (x : platter) : platter := wrap32 (N.lnot x 32).

(** [x - y] on a [uint32]. *)
Definition sub32 (x y : platter) : platter := wrap32 (x + (2 ^ 32 - wrap32 y)).

(** An [int] of 64 bits: [x] reduced to the range of [int64], as the
    arithmetic of Go wraps around. *)
Definition wrap_int (x : Z) : Z := ((x + 2 ^ 63) mod 2 ^ 64 - 2 ^ 63)%Z.

(** ** Slices and backing arrays *)

Definition loc := nat.

(** [make([]platter, len)] *)
Definition make (len : N) : list platter := replicate (N.to_nat len) 0.

(** [copy(dst, src)]: the first [min(len(dst), len(src))] elements. *)
Definition copy (dst src : list platter) : list platter :=
  take (length dst) src ++ drop (length src) dst.

(** The elements a slice value denotes; the nil slice has none. *)
Definition elems (arrays : list (list platter)) (s : option loc) : list platter :=
  match s with
  | Some l => default [] (arrays !! l)
  | None => []
  end.

(** [s[i]] as an r-value; [None] is the index-out-of-range panic. *)
Definition index (arrays : list (list platter)) (s : option loc) (i : nat)
  : option platter :=
  elems arrays s !! i.

(** [s[i] = v]; [None] is the index-out-of-range panic. *)
Definition store (arrays : list (list platter)) (s : option loc) (i : nat)
    (v : platter) : option (list (list platter)) :=
  match s with
  | Some l =>
      match arrays !! l with
      | Some a =>
          if decide (i < length a)%nat then Some (<[l := <[i := v]> a]> arrays)
          else None
      | None => None
      end
  | None => None
  end.

(** ** Snapshot files *)

(** What a backup file holds: the exported fields of the machine that
    [encoding/gob] transmitted.  The bytes of the stream are not modelled; a
    file is the message it carries.  An array is always transmitted, a map
    with all its entries, an integer only when it is not zero. *)
Record Snapshot := {
  sGpr : vec platter 8;
  sHeap : list (platter * list platter);
  sNextHeap : option platter;
  sExFinger : option Z;
}.

(** What [doBackup] does to the disk and the log. *)
Inductive FsEvent :=
  | TempFileFailed                 (* ioutil.TempFile failed, logged *)
  | TempFileWritten (w : Snapshot) (* enc.Encode(um) into the temporary file *)
  | EncodeFailed                   (* enc.Encode failed, logged, data left behind *)
  | ArchiveWritten (name : Z) (w : Snapshot)
                                   (* io.Copy into backup.<time>.dat *)
  | Renamed                        (* os.Rename(tmp, backup.dat) *)
  | RenameFailed.                  (* os.Rename failed, logged *)

(** ** The machine *)

Record UniversalMachine := {
  Gpr : vec platter 8;
  Heap : gmap N loc;
  NextHeap : platter;
  ExFinger : Z;
  consoleOut : list byte;       (* what has been written to the writer *)
  backupFolder : string;
  lastBackup : Z;               (* nanoseconds *)
  arrays : list (list platter); (* the backing arrays of all slices made *)
  disk : list FsEvent;          (* what the checkpointer did so far *)
}.

Definition set_Gpr (g : vec platter 8) (um : UniversalMachine) :=
  {| Gpr := g; Heap := Heap um; NextHeap := NextHeap um; ExFinger := ExFinger um;
     consoleOut := consoleOut um; backupFolder := backupFolder um;
     lastBackup := lastBackup um; arrays := arrays um; disk := disk um |}.

Definition set_Heap (h : gmap N loc) (um : UniversalMachine) :=
  {| Gpr := Gpr um; Heap := h; NextHeap := NextHeap um; ExFinger := ExFinger um;
     consoleOut := consoleOut um; backupFolder := backupFolder um;
     lastBackup := lastBackup um; arrays := arrays um; disk := disk um |}.

Definition set_NextHeap (n : platter) (um : UniversalMachine) :=
  {| Gpr := Gpr um; Heap := Heap um; NextHeap := n; ExFinger := ExFinger um;
     consoleOut := consoleOut um; backupFolder := backupFolder um;
     lastBackup := lastBackup um; arrays := arrays um; disk := disk um |}.

Definition set_ExFinger (f : Z) (um : UniversalMachine) :=
  {| Gpr := Gpr um; Heap := Heap um; NextHeap := NextHeap um; ExFinger := f;
     consoleOut := consoleOut um; backupFolder := backupFolder um;
     lastBackup := lastBackup um; arrays := arrays um; disk := disk um |}.

Definition set_consoleOut (o : list byte) (um : UniversalMachine) :=
  {| Gpr := Gpr um; Heap := Heap um; NextHeap := NextHeap um; ExFinger := ExFinger um;
     consoleOut := o; backupFolder := backupFolder um;
     lastBackup := lastBackup um; arrays := arrays um; disk := disk um |}.

Definition set_lastBackup (t : Z) (um : UniversalMachine) :=
  {| Gpr := Gpr um; Heap := Heap um; NextHeap := NextHeap um; ExFinger := ExFinger um;
     consoleOut := consoleOut um; backupFolder := backupFolder um;
     lastBackup := t; arrays := arrays um; disk := disk um |}.

Definition set_arrays (a : list (list platter)) (um : UniversalMachine) :=
  {| Gpr := Gpr um; Heap := Heap um; NextHeap := NextHeap um; ExFinger := ExFinger um;
     consoleOut := consoleOut um; backupFolder := backupFolder um;
     lastBackup := lastBackup um; arrays := a; disk := disk um |}.

Definition set_disk (d : list FsEvent) (um : UniversalMachine) :=
  {| Gpr := Gpr um; Heap := Heap um; NextHeap := NextHeap um; ExFinger := ExFinger um;
     consoleOut := consoleOut um; backupFolder := backupFolder um;
     lastBackup := lastBackup um; arrays := arrays um; disk := d |}.

(** The zero [time.Time]: 1 January of year 1, in nanoseconds before the
    Unix epoch. *)
Definition zeroTime : Z := (-62135596800 * 1000000000)%Z.

(** [New(input, output, errorOutput, backupFolder)] *)
Definition New (backupFolder : string) : UniversalMachine :=
  {| Gpr := vreplicate 8 0; Heap := ∅; NextHeap := 0; ExFinger := 0%Z;
     consoleOut := []; backupFolder := backupFolder; lastBackup := zeroTime;
     arrays := []; disk := [] |}.

(** [um.Heap[k]]: the slice stored under [k], nil when there is none. *)
Definition segment (um : UniversalMachine) (k : platter) : list platter :=
  elems (arrays um) (Heap um !! k).

(** [allocateHeapArray(len)] *)
Definition allocateHeapArray (len : platter) (um : UniversalMachine)
  : platter * UniversalMachine :=
  let um := set_arrays (arrays um ++ [make len])
              (set_Heap (<[NextHeap um := length (arrays um)]> (Heap um)) um) in
  let um := set_NextHeap (wrap32 (NextHeap um + 1)) um in
  (sub32 (NextHeap um) 1, um).

(** ** Decoding *)

(** A register number as an index of the array [Gpr]; the masks of the
    dispatcher leave nothing above 7. *)
Definition reg (n : N) : fin 8 :=
  match n with
  | 0 => 0%fin | 1 => 1%fin | 2 => 2%fin | 3 => 3%fin
  | 4 => 4%fin | 5 => 5%fin | 6 => 6%fin | _ => 7%fin
  end.

Definition opcode (instruction : platter) : N := N.land instruction 0xf0000000.
Definition regA (instruction : platter) : fin 8 :=
  reg (N.shiftr (N.land instruction 0x000001C0) 6).
Definition regB (instruction : platter) : fin 8 :=
  reg (N.shiftr (N.land instruction 0x00000038) 3).
Definition regC (instruction : platter) : fin 8 :=
  reg (N.land instruction 0x00000007).
(** Register A of Orthography. *)
Definition regO (instruction : platter) : fin 8 :=
  reg (N.shiftr (N.land instruction 0x0e000000) 25).
Definition immediate (instruction : platter) : platter :=
  N.land instruction 0x01ffffff.

(** ** What the environment answers during one iteration *)

Inductive ReadError := EOF | OtherError (msg : string).

(** [count, err := um.consoleIn.Read(ip)] with [len(ip) = 1]; [ip0] is
    [ip[0]] after the call. *)
Record ReadResult := { count : Z; ip0 : byte; err : option ReadError }.

Record Env := {
  consoleIn : ReadResult;
  clock_gate : Z;      (* time.Since(um.lastBackup) > time.Minute *)
  clock_archive : Z;   (* time.Since(um.lastBackup) > 15*time.Minute *)
  clock_name : Z;      (* time.Now() in the archive's name *)
  clock_done : Z;      (* um.lastBackup = time.Now() *)
  tempfile_ok : bool;  (* ioutil.TempFile *)
  encode_ok : bool;    (* enc.Encode *)
  create_ok : bool;    (* os.Create of the archive *)
  rename_ok : bool;    (* os.Rename *)
}.

(** ** The checkpointer *)

Definition Minute : Z := 60 * 1000000000.

(** [time.Since(t)] when the clock reads [now]: a [time.Duration], an
    [int64] of nanoseconds, saturating. *)
Definition Since (now t : Z) : Z :=
  Z.max (- 2 ^ 63) (Z.min (2 ^ 63 - 1) (now - t)).

(** What [encoding/gob] transmits of a machine: the exported fields; an
    array always, every entry of the map with its elements, an integer
    field only when it is not zero.  Go leaves the order of the entries of
    a map open; here it is that of [map_to_list], and the decoded heap does
    not depend on it ([gob_decode_order]). *)
Definition gob_encode (um : UniversalMachine) : Snapshot :=
  {| sGpr := Gpr um;
     sHeap := (λ kl, (kl.1, elems (arrays um) (Some kl.2))) <$> map_to_list (Heap um);
     sNextHeap := if decide (NextHeap um = 0) then None else Some (NextHeap um);
     sExFinger := if decide (ExFinger um = 0%Z) then None else Some (ExFinger um) |}.

(** [doBackup(withTimestampFile)] *)
Definition doBackup (e : Env) (withTimestampFile : bool) (um : UniversalMachine)
  : UniversalMachine :=
  if negb (tempfile_ok e) then set_disk (disk um ++ [TempFileFailed]) um
  else if negb (encode_ok e) then set_disk (disk um ++ [EncodeFailed]) um
  else
    let w := gob_encode um in
    let um := set_disk (disk um ++ [TempFileWritten w]) um in
    let um :=
      if withTimestampFile && create_ok e
      then set_disk (disk um ++ [ArchiveWritten (clock_name e) w]) um
      else um in
    set_disk (disk um ++ [if rename_ok e then Renamed else RenameFailed]) um.

(** [backup()] *)
Definition backup (e : Env) (um : UniversalMachine) : UniversalMachine :=
  if decide (backupFolder um ≠ "") then
    if (Minute <? Since (clock_gate e) (lastBackup um))%Z then
      let um :=
        doBackup e (15 * Minute <? Since (clock_archive e) (lastBackup um))%Z um in
      set_lastBackup (clock_done e) um
    else um
  else um.

(** ** The dispatch loop *)

(** The state of [spin] between two iterations: the machine and the local
    variable [programHeap], a slice that shares its backing array with the
    entry of the heap it was read from. *)
Record SpinState := {
  mach : UniversalMachine;
  programHeap : option loc;
}.

Inductive Outcome :=
  | Running (s : SpinState)
  | Halted (um : UniversalMachine) (err : option string) (* um.halt(err); return *)
  | Panic.                                                (* a Go run-time panic *)

(** [programHeap := um.Heap[0]] *)
Definition spin_init (um : UniversalMachine) : SpinState :=
  {| mach := um; programHeap := Heap um !! 0 |}.

Definition R (um : UniversalMachine) (r : fin 8) : platter := Gpr um !!! r.

Definition setR (r : fin 8) (v : platter) (um : UniversalMachine) : UniversalMachine :=
  set_Gpr (vinsert r v (Gpr um)) um.

Definition continue (um : UniversalMachine) (ph : option loc) : Outcome :=
  Running {| mach := um; programHeap := ph |}.

Section Opcodes.
Variable instruction : platter.
Variable ph : option loc.

(** #0. Conditional Move. *)
Definition op_conditional_move (um : UniversalMachine) : Outcome :=
  if decide (R um (regC instruction) ≠ 0)
  then continue (setR (regA instruction) (R um (regB instruction)) um) ph
  else continue um ph.

(** #1. Array Index. *)
Definition op_array_index (um : UniversalMachine) : Outcome :=
  match index (arrays um) (Heap um !! R um (regB instruction))
              (N.to_nat (R um (regC instruction))) with
  | Some v => continue (setR (regA instruction) v um) ph
  | None => Panic
  end.

(** #2. Array Amendment. *)
Definition op_array_amendment (um : UniversalMachine) : Outcome :=
  match store (arrays um) (Heap um !! R um (regA instruction))
              (N.to_nat (R um (regB instruction))) (R um (regC instruction)) with
  | Some a => continue (set_arrays a um) ph
  | None => Panic
  end.

(** #3. Addition. *)
Definition op_addition (um : UniversalMachine) : Outcome :=
  continue (setR (regA instruction)
              (wrap32 (R um (regB instruction) + R um (regC instruction))) um) ph.

(** #4. Multiplication. *)
Definition op_multiplication (um : UniversalMachine) : Outcome :=
  continue (setR (regA instruction)
              (wrap32 (R um (regB instruction) * R um (regC instruction))) um) ph.

(** #5. Division. *)
Definition op_division (um : UniversalMachine) : Outcome :=
  if decide (R um (regC instruction) = 0) then Panic
  else continue (setR (regA instruction)
                   (R um (regB instruction) / R um (regC instruction)) um) ph.

(** #6. Not-And. *)
Definition op_not_and (um : UniversalMachine) : Outcome :=
  continue (setR (regA instruction)
              (not32 (N.land (R um (regB instruction)) (R um (regC instruction)))) um) ph.

(** #7. Halt. *)
Definition op_halt (um : UniversalMachine) : Outcome := Halted um None.

(** #8. Allocation. *)
Definition op_allocation (um : UniversalMachine) : Outcome :=
  let '(ref, um') := allocateHeapArray (R um (regC instruction)) um in
  continue (setR (regB instruction) ref um') ph.

(** #9. Abandonment. *)
Definition op_abandonment (um : UniversalMachine) : Outcome :=
  continue (set_Heap (delete (R um (regC instruction)) (Heap um)) um) ph.

(** [uint8(x)] *)
Definition uint8 (x : platter) : byte :=
  default "000"%byte (Byte.of_N (x mod 256)).

(** #10. Output. *)
Definition op_output (um : UniversalMachine) : Outcome :=
  continue (set_consoleOut (consoleOut um ++ [uint8 (R um (regC instruction))]) um) ph.

(** #11. Input. *)
Definition op_input (e : Env) (um : UniversalMachine) : Outcome :=
  let um := backup e um in
  let um :=
    if decide (count (consoleIn e) = 1%Z)
    then setR (regC instruction) (Byte.to_N (ip0 (consoleIn e))) um
    else um in
  match err (consoleIn e) with
  | Some EOF => continue (setR (regC instruction) 0xffffffff um) ph
  | Some (OtherError msg) =>
      Halted um (Some ("error reading from stdin: " +:+ msg))
  | None => continue um ph
  end.

(** #12. Load Program. *)
Definition op_load_program (um : UniversalMachine) : Outcome :=
  let valInRegB := R um (regB instruction) in
  let '(um', ph') :=
    if decide (valInRegB ≠ 0) then
      let newProgram :=
        copy (make (N.of_nat (length (segment um valInRegB))))
             (segment um valInRegB) in
      let um' := set_Heap (<[0 := length (arrays um)]> (Heap um))
                   (set_arrays (arrays um ++ [newProgram]) um) in
      (um', Heap um' !! 0)
    else (um, ph) in
  continue (set_ExFinger (Z.of_N (R um' (regC instruction))) um') ph'.

(** #13. Orthography. *)
Definition op_orthography (um : UniversalMachine) : Outcome :=
  continue (setR (regO instruction) (immediate instruction) um) ph.

(** The [switch op] of the loop body; an operator number without a case
    falls through it. *)
Definition dispatch (e : Env) (um : UniversalMachine) : Outcome :=
  let op := opcode instruction in
  if op =? 0 then op_conditional_move um
  else if op =? N.shiftl 1 28 then op_array_index um
  else if op =? N.shiftl 2 28 then op_array_amendment um
  else if op =? N.shiftl 3 28 then op_addition um
  else if op =? N.shiftl 4 28 then op_multiplication um
  else if op =? N.shiftl 5 28 then op_division um
  else if op =? N.shiftl 6 28 then op_not_and um
  else if op =? N.shiftl 7 28 then op_halt um
  else if op =? N.shiftl 8 28 then op_allocation um
  else if op =? N.shiftl 9 28 then op_abandonment um
  else if op =? N.shiftl 10 28 then op_output um
  else if op =? N.shiftl 11 28 then op_input e um
  else if op =? N.shiftl 12 28 then op_load_program um
  else if op =? N.shiftl 13 28 then op_orthography um
  else continue um ph.
End Opcodes.

(** [instruction = programHeap[um.ExFinger]]; [None] is the panic. *)
Definition fetch (s : SpinState) : option platter :=
  if decide (ExFinger (mach s) < 0)%Z then None
  else index (arrays (mach s)) (programHeap s) (Z.to_nat (ExFinger (mach s))).

(** One iteration of the [for] loop of [spin]. *)
Definition spin_step (e : Env) (s : SpinState) : Outcome :=
  match fetch s with
  | Some instruction =>
      dispatch instruction (programHeap s) e
        (set_ExFinger (ExFinger (mach s) + 1) (mach s))
  | None => Panic
  end.

(** ** The loaders *)

(** One platter of [binary.BigEndian]. *)
Definition be32 (b0 b1 b2 b3 : byte) : platter :=
  N.lor (N.shiftl (Byte.to_N b0) 24)
    (N.lor (N.shiftl (Byte.to_N b1) 16)
       (N.lor (N.shiftl (Byte.to_N b2) 8) (Byte.to_N b3))).

(** The whole groups of four bytes of a buffer, in order. *)
Fixpoint platters (data : list byte) : list platter :=
  match data with
  | b0 :: b1 :: b2 :: b3 :: rest => be32 b0 b1 b2 b3 :: platters rest
  | _ => []
  end.

(** [binary.Read(bytes.NewBuffer(data), binary.BigEndian, &s)] with
    [len(s) = n]: it needs [4 * n] bytes and fails on a shorter buffer
    ([io.ErrUnexpectedEOF]); [None] is that error. *)
Definition binary_Read (data : list byte) (n : nat) : option (list platter) :=
  if decide (length data < 4 * n)%nat then None
  else Some (take n (platters data)).

(** [int(math.Ceil(float64(len) / 4))], exact below 2^53 bytes. *)
Definition numPlatters (data : list byte) : nat := ((length data + 3) / 4)%nat.

(** What [ioutil.ReadAll(p)] returns: the bytes read and the error, if any. *)
Record Stream := { bytes_read : list byte; read_error : option string }.

(** [LoadProgram(p)]; the second component is the error returned. *)
Definition LoadProgram (p : Stream) (um : UniversalMachine)
  : UniversalMachine * option string :=
  match read_error p with
  | Some msg => (um, Some ("error reading data: " +:+ msg))
  | None =>
      let programData := bytes_read p in
      match binary_Read programData (numPlatters programData) with
      | None => (um, Some "error converting bytes to platters: unexpected EOF")
      | Some platterProgram =>
          let '(ref, um) :=
            allocateHeapArray (wrap32 (N.of_nat (length platterProgram))) um in
          let um :=
            match Heap um !! ref with
            | Some l =>
                set_arrays
                  (<[l := copy (elems (arrays um) (Some l)) platterProgram]> (arrays um))
                  um
            | None => um
            end in
          (um, None)
      end
  end.

(** What the decoder of [encoding/gob] does with the destination: a field
    that was transmitted is set, every transmitted entry of the map is
    stored under its key in the map that is there, with a new backing
    array; a field that was not transmitted keeps its value. *)
Definition gob_decode_entry (um : UniversalMachine) (kv : platter * list platter)
  : UniversalMachine :=
  set_arrays (arrays um ++ [kv.2])
    (set_Heap (<[kv.1 := length (arrays um)]> (Heap um)) um).

Definition gob_decode (w : Snapshot) (um : UniversalMachine) : UniversalMachine :=
  let um := set_Gpr (sGpr w) um in
  let um := foldl gob_decode_entry um (sHeap w) in
  let um := from_option (λ n, set_NextHeap n um) um (sNextHeap w) in
  from_option (λ f, set_ExFinger f um) um (sExFinger w).

(** [LoadFromBackup(b)].  The stream [b] is what the decoder reads from it:
    a snapshot, or nothing it accepts ([None]).  The result [None] is the
    error returned.  [um.ExFinger--] is a decrement of an [int]: from the
    least [int] it wraps around to the greatest. *)
Definition LoadFromBackup (b : option Snapshot) (um : UniversalMachine)
  : option UniversalMachine :=
  match b with
  | None => None
  | Some w =>
      let um := gob_decode w um in
      Some (set_ExFinger (wrap_int (ExFinger um - 1)) um)
  end.

(** * Notions the properties are stated with *)

(** The field of [len] bits of [x] that starts at bit [lo]. *)
Definition bits (lo len : N) (x : N) : N := (x / 2 ^ lo) mod 2 ^ len.

(** The semantics an operator number selects, as the table of opcodes lists
    them; the numbers 14 and 15 have no case in the switch. *)
Definition spec_dispatch (number : N) (instruction : platter) (ph : option loc)
    (e : Env) (um : UniversalMachine) : Outcome :=
  match number with
  | 0 => op_conditional_move instruction ph um
  | 1 => op_array_index instruction ph um
  | 2 => op_array_amendment instruction ph um
  | 3 => op_addition instruction ph um
  | 4 => op_multiplication instruction ph um
  | 5 => op_division instruction ph um
  | 6 => op_not_and instruction ph um
  | 7 => op_halt um
  | 8 => op_allocation instruction ph um
  | 9 => op_abandonment instruction ph um
  | 10 => op_output instruction ph um
  | 11 => op_input instruction ph e um
  | 12 => op_load_program instruction ph um
  | 13 => op_orthography instruction ph um
  | _ => continue um ph
  end.

(** The table of opcodes of the specification for the operator numbers 0
    to 12, as a function of the decoded fields: the operator [number] and
    the registers [A], [B] and [C] the instruction names.  It is written
    from the rows of the table and not from the cases of the switch, to be
    compared with them ([instruction_format]): which register an operator
    reads and which it writes is said here once more.  The machine [um] has
    its finger advanced already.  Where the table leaves the outcome open (an
    offset outside the segment, a zero divisor) it has the run-time panic;
    the heap is the map of slices of the machine, an Allocation takes its
    identifier from [allocateHeapArray], and an Input calls the checkpointer
    before it reads. *)
Definition opcode_table (number : N) (A B C : fin 8) (ph : option loc) (e : Env)
    (um : UniversalMachine) : Outcome :=
  let rA := Gpr um !!! A in
  let rB := Gpr um !!! B in
  let rC := Gpr um !!! C in
  let write r v um := set_Gpr (vinsert r v (Gpr um)) um in
  let next um := Running {| mach := um; programHeap := ph |} in
  match number with
  | 0 => (* if R[C] ≠ 0 then R[A] := R[B] *)
      if decide (rC = 0) then next um else next (write A rB um)
  | 1 => (* R[A] := heap[R[B]][R[C]] *)
      match segment um rB !! N.to_nat rC with
      | Some v => next (write A v um)
      | None => Panic
      end
  | 2 => (* heap[R[A]][R[B]] := R[C] *)
      match store (arrays um) (Heap um !! rA) (N.to_nat rB) rC with
      | Some a => next (set_arrays a um)
      | None => Panic
      end
  | 3 => (* R[A] := (R[B] + R[C]) mod 2^32 *)
      next (write A ((rB + rC) mod 2 ^ 32) um)
  | 4 => (* R[A] := (R[B] × R[C]) mod 2^32 *)
      next (write A ((rB * rC) mod 2 ^ 32) um)
  | 5 => (* R[A] := R[B] ÷ R[C] *)
      if decide (rC = 0) then Panic else next (write A (rB / rC) um)
  | 6 => (* R[A] := bitwise NOT (R[B] AND R[C]) *)
      next (write A (N.lnot (N.land rB rC) 32 mod 2 ^ 32) um)
  | 7 => (* terminate normally *)
      Halted um None
  | 8 => (* a new segment of length R[C]; its identifier in R[B] *)
      let '(identifier, um) := allocateHeapArray rC um in
      next (write B identifier um)
  | 9 => (* destroy the segment identified by R[C] *)
      next (set_Heap (delete rC (Heap um)) um)
  | 10 => (* write the low 8 bits of R[C] *)
      next (set_consoleOut (consoleOut um ++ [uint8 rC]) um)
  | 11 => (* read one byte into R[C]; at the end of the input 0xFFFFFFFF *)
      let um := backup e um in
      let um :=
        if decide (count (consoleIn e) = 1%Z)
        then write C (Byte.to_N (ip0 (consoleIn e))) um
        else um in
      match err (consoleIn e) with
      | None => next um
      | Some EOF => next (write C 0xffffffff um)
      | Some (OtherError msg) => Halted um (Some ("error reading from stdin: " +:+ msg))
      end
  | 12 => (* if R[B] ≠ 0, segment 0 := a copy of segment R[B]; finger := R[C] *)
      if decide (rB = 0) then next (set_ExFinger (Z.of_N rC) um)
      else
        let duplicate := segment um rB in
        Running
          {| mach :=
               set_ExFinger (Z.of_N rC)
                 (set_Heap (<[0 := length (arrays um)]> (Heap um))
                    (set_arrays (arrays um ++ [duplicate]) um));
             programHeap := Some (length (arrays um)) |}
  | _ => next um
  end.

(** The machine an iteration ends in, unless it panics. *)
Definition final (o : Outcome) : option UniversalMachine :=
  match o with
  | Running s => Some (mach s)
  | Halted um _ => Some um
  | Panic => None
  end.

(** The register an instruction names as its destination. *)
Definition destination (i : platter) : option (fin 8) :=
  match bits 28 4 i with
  | 0 | 1 | 3 | 4 | 5 | 6 => Some (regA i)
  | 8 => Some (regB i)
  | 11 => Some (regC i)
  | 13 => Some (regO i)
  | _ => None
  end.

(** The snapshot was written to the temporary file. *)
Definition checkpoint_written (d : list FsEvent) : Prop :=
  ∃ w, TempFileWritten w ∈ d.

(** An archive copy was written. *)
Definition archive_written (d : list FsEvent) : Prop :=
  ∃ name w, ArchiveWritten name w ∈ d.

(** Every slice points to a backing array that was made, and two entries
    of the heap never share one. *)
Definition wf_slices (h : gmap N loc) (a : list (list platter)) (ph : option loc)
  : Prop :=
  (∀ k l, h !! k = Some l → (l < length a)%nat) ∧
  (∀ l, ph = Some l → (l < length a)%nat) ∧
  (∀ k1 k2 l, h !! k1 = Some l → h !! k2 = Some l → k1 = k2).

Definition wf (s : SpinState) : Prop :=
  wf_slices (Heap (mach s)) (arrays (mach s)) (programHeap s).

(** The heap as a map from identifiers to the elements of the segments. *)
Definition heap_contents (um : UniversalMachine) : gmap N (list platter) :=
  (λ l, elems (arrays um) (Some l)) <$> Heap um.

(** The identifiers an iteration hands out: what an Allocation leaves in
    register B. *)
Definition handed_out (s s' : SpinState) : list platter :=
  match fetch s with
  | Some i => if decide (bits 28 4 i = 8) then [R (mach s') (regB i)] else []
  | None => []
  end.

(** A run of the loop in some environment, with the identifiers handed out
    on the way. *)
Inductive run : SpinState → list platter → SpinState → Prop :=
  | run_done s : run s [] s
  | run_step e s s' ids s'' :
      spin_step e s = Running s' → run s' ids s'' →
      run s (handed_out s s' ++ ids) s''.

(** The big-endian bytes of a platter. *)
Definition be_bytes (p : platter) : list byte :=
  [uint8 (N.shiftr p 24); uint8 (N.shiftr p 16); uint8 (N.shiftr p 8); uint8 p].

Definition program_file (program : list platter) : Stream :=
  {| bytes_read := mjoin (be_bytes <$> program); read_error := None |}.

(** The state after [n] iterations in the environment [e], as long as the
    machine runs. *)
Fixpoint iterate (n : nat) (e : Env) (s : SpinState) : SpinState :=
  match n with
  | O => s
  | S n =>
      match spin_step e s with
      | Running s' => iterate n e s'
      | _ => s
      end
  end.

(** ** Notions of the machine as a whole *)

(** Every platter of the machine is a 32-bit value: the registers, the
    next-identifier counter and the elements of every array made. *)
Definition in_range (um : UniversalMachine) : Prop :=
  (∀ r, R um r < 2 ^ 32) ∧ NextHeap um < 2 ^ 32 ∧
  Forall (Forall (λ x, x < 2 ^ 32)) (arrays um).

(** The platters the loop executes: the elements of [programHeap]. *)
Definition program (s : SpinState) : list platter :=
  elems (arrays (mach s)) (programHeap s).

(** The loop executes segment 0: its local slice is the entry of the heap
    under the identifier 0. *)
Definition coherent (s : SpinState) : Prop := programHeap s = Heap (mach s) !! 0.

(** The loop executes an array no identifier names any more. *)
Definition detached (s : SpinState) : Prop :=
  ∃ l, programHeap s = Some l ∧ ∀ k, Heap (mach s) !! k ≠ Some l.

(** The slices of the state are in order, and the loop executes segment 0
    or an array no identifier names. *)
Definition sound (s : SpinState) : Prop := wf s ∧ (coherent s ∨ detached s).

(** Two states with the same registers, counter, finger, segments and
    program, of which both or neither execute segment 0 itself (an Amendment
    of segment 0 changes the program of the one and not of the other); the
    addresses of the backing arrays, the console, the disk and the time of
    the last checkpoint may differ. *)
Definition alike (s1 s2 : SpinState) : Prop :=
  Gpr (mach s1) = Gpr (mach s2) ∧ NextHeap (mach s1) = NextHeap (mach s2) ∧
  ExFinger (mach s1) = ExFinger (mach s2) ∧
  heap_contents (mach s1) = heap_contents (mach s2) ∧
  program s1 = program s2 ∧ (coherent s1 ↔ coherent s2).

(** The loop of [spin] with one environment for each iteration. *)
Fixpoint spin_in (es : list Env) (s : SpinState) : Outcome :=
  match es with
  | [] => Running s
  | e :: es =>
      match spin_step e s with
      | Running s' => spin_in es s'
      | o => o
      end
  end.

(** How a run ended, as far as it went. *)
Inductive Ending :=
  | StillRunning
  | Stopped (result : option string)
  | Panicked.

Definition ending (o : Outcome) : Ending :=
  match o with
  | Running _ => StillRunning
  | Halted _ result => Stopped result
  | Panic => Panicked
  end.

(** What a run that started with [before] on the console wrote to it. *)
Definition written (before : list byte) (o : Outcome) : option (list byte) :=
  (λ um, drop (length before) (consoleOut um)) <$> final o.

(** * Machines and environments to try things on *)

(** Orthography of 'A' into register 0, Input into register 0, Output of
    register 0, Halt. *)
Definition echo_program : list platter :=
  [0xD0000041; 0xB0000000; 0xA0000000; 0x70000000].

Definition echo_machine : UniversalMachine :=
  (LoadProgram (program_file echo_program) (New "")).1.

(** A console that delivers the byte 'B'; the clock stands at zero and the
    file system works. *)
Definition quiet_env : Env :=
  {| consoleIn := {| count := 1; ip0 := "B"%byte; err := None |};
     clock_gate := 0; clock_archive := 0; clock_name := 0; clock_done := 0;
     tempfile_ok := true; encode_ok := true; create_ok := true;
     rename_ok := true |}.

(** The echo machine about to execute its Input instruction. *)
Definition at_input : SpinState := iterate 1 quiet_env (spin_init echo_machine).

(** A console whose read delivers the byte 'B' together with [io.EOF]. *)
Definition last_byte_env : Env :=
  {| consoleIn := {| count := 1; ip0 := "B"%byte; err := Some EOF |};
     clock_gate := 0; clock_archive := 0; clock_name := 0; clock_done := 0;
     tempfile_ok := true; encode_ok := true; create_ok := true;
     rename_ok := true |}.

(** The clock reads zero and the file system works. *)
Definition first_env : Env :=
  {| consoleIn := {| count := 1; ip0 := "B"%byte; err := None |};
     clock_gate := 0; clock_archive := 0; clock_name := 0; clock_done := 0;
     tempfile_ok := true; encode_ok := true; create_ok := true;
     rename_ok := true |}.

(** A machine with a backup folder whose first checkpoint was taken when
    the clock read zero. *)
Definition checkpointed_machine : UniversalMachine :=
  backup first_env (LoadProgram (program_file echo_program) (New "/backup")).1.

(** The clock reads just under 900 seconds at the first test and 900
    seconds at the second. *)
Definition late_env : Env :=
  {| consoleIn := {| count := 1; ip0 := "B"%byte; err := None |};
     clock_gate := 899999999000; clock_archive := 900000000000;
     clock_name := 900000001000; clock_done := 900000002000;
     tempfile_ok := true; encode_ok := true; create_ok := true;
     rename_ok := true |}.

(** Allocation of an empty segment into register 1, then Load Program from
    the segment register 1 names. *)
Definition copy_program : list platter := [0x80000008; 0xC0000008].

Definition copy_machine : UniversalMachine :=
  (LoadProgram (program_file copy_program) (New "")).1.

Definition at_load_program : SpinState :=
  iterate 1 quiet_env (spin_init copy_machine).

(** Allocation of an empty segment into register 1, Abandonment of the
    segment register 1 names, Load Program with zero in register B and the
    finger back at 0. *)
Definition loop_program : list platter := [0x80000008; 0x90000001; 0xC0000000].

Definition loop_machine : UniversalMachine :=
  (LoadProgram (program_file loop_program) (New "")).1.

(** The loop machine after [n] turns of its loop. *)
Definition loop_state (n : N) : SpinState :=
  {| mach :=
       {| Gpr := vinsert 1%fin (wrap32 n) (vreplicate 8 0);
          Heap := {[0 := 0%nat]};
          NextHeap := wrap32 (1 + n);
          ExFinger := 0;
          consoleOut := [];
          backupFolder := "";
          lastBackup := zeroTime;
          arrays := loop_program :: replicate (N.to_nat n) [];
          disk := [] |};
     programHeap := Some 0%nat |}.

(** The loop of [spin], cut off after [fuel] iterations in the environment
    [e]. *)
Fixpoint spin (fuel : nat) (e : Env) (s : SpinState) : Outcome :=
  match fuel with
  | O => Running s
  | S fuel =>
      match spin_step e s with
      | Running s' => spin fuel e s'
      | o => o
      end
  end.

(** The console output of a machine that halted normally. *)
Definition halted_with (o : Outcome) : option (list byte) :=
  match o with
  | Halted um None => Some (consoleOut um)
  | _ => None
  end.

(** A standard instruction and an Orthography. *)
Definition std (number a b c : N) : platter := number * 2 ^ 28 + a * 64 + b * 8 + c.
Definition ortho (a value : N) : platter := 13 * 2 ^ 28 + a * 2 ^ 25 + value.

(** A new machine with the program loaded, at the head of [spin]. *)
Definition load (program : list platter) : SpinState :=
  spin_init (LoadProgram (program_file program) (New "")).1.

(** A console at the end of its input. *)
Definition eof_env : Env :=
  {| consoleIn := {| count := 0; ip0 := "000"%byte; err := Some EOF |};
     clock_gate := 0; clock_archive := 0; clock_name := 0; clock_done := 0;
     tempfile_ok := true; encode_ok := true; create_ok := true;
     rename_ok := true |}.

(** Allocate three platters into register 1, store 0xDEADBEEF at offset 0,
    read it back into register 2, output its low byte, halt. *)
Definition store_program : list platter :=
  [ ortho 3 0xDEAD; ortho 4 0x10000; std 4 3 3 4; ortho 4 0xBEEF; std 3 3 3 4;
    ortho 0 3; std 8 0 1 0; std 2 1 5 3; std 1 2 1 5; std 10 0 0 2; std 7 0 0 0 ].

(** Build the program (Output register 2; Halt) in a new segment and load
    it; what follows the Load Program would output 'C'. *)
Definition replace_program : list platter :=
  [ ortho 2 0x42;
    ortho 3 10; ortho 4 0x1000000; std 4 3 3 4; ortho 4 16; std 4 3 3 4;
    ortho 4 2; std 3 3 3 4;
    ortho 5 7; ortho 4 0x1000000; std 4 5 5 4; ortho 4 16; std 4 5 5 4;
    ortho 0 2; std 8 0 1 0; std 2 1 6 3; ortho 7 1; std 2 1 7 5;
    std 12 0 1 6;
    ortho 2 0x43; std 10 0 0 2; std 7 0 0 0 ].

(** Abandonment of the identifier 0, the program itself, then an
    Orthography and Halt. *)
Definition abandon_program : list platter := [0x90000000; 0xD0000041; 0x70000000].

(** The machine that abandoned its program, about to execute the
    Orthography. *)
Definition after_abandonment : SpinState := iterate 1 quiet_env (load abandon_program).

(** Orthography of 12 and of 10 into the registers 1 and 2, Not-And of the
    two into register 0, Halt. *)
Definition nand_program : list platter :=
  [ortho 1 12; ortho 2 10; std 6 0 1 2; std 7 0 0 0].

Definition at_nand : SpinState := iterate 2 quiet_env (load nand_program).

(** The echo machine about to execute its Output. *)
Definition at_output : SpinState := iterate 1 quiet_env at_input.

(** The machine of [store_program] about to execute its Array Amendment. *)
Definition at_amendment : SpinState := iterate 7 quiet_env (load store_program).

(** The echo machine with a backup folder, about to execute its Input. *)
Definition at_input_with_folder : SpinState :=
  iterate 1 quiet_env
    (spin_init (LoadProgram (program_file echo_program) (New "/backup")).1).

(** A read that delivers nothing and reports no error. *)
Definition empty_read_env : Env :=
  {| consoleIn := {| count := 0; ip0 := "000"%byte; err := None |};
     clock_gate := 0; clock_archive := 0; clock_name := 0; clock_done := 0;
     tempfile_ok := true; encode_ok := true; create_ok := true;
     rename_ok := true |}.

(** Abandonment of the identifier 0, the program itself, then Input and
    Halt. *)
Definition abandon_then_input : list platter := [0x90000000; 0xB0000000; 0x70000000].

(** The machine that abandoned its program, with a backup folder, about to
    execute the Input. *)
Definition at_input_detached : SpinState :=
  iterate 1 quiet_env
    (spin_init (LoadProgram (program_file abandon_then_input) (New "/backup")).1).

(** * Properties *)

(** ** The scenarios of the specification *)

Example scenario_halt_only :
  halted_with (spin 10 quiet_env (load [0x70000000])) = Some [].
Proof. vm_compute. reflexivity. Qed.

Example scenario_print_A :
  halted_with (spin 10 quiet_env (load [0xD0000041; 0xA0000000; 0x70000000]))
  = Some ["A"%byte].
Proof. vm_compute. reflexivity. Qed.

Example scenario_allocate_and_store :
  halted_with (spin 20 quiet_env (load store_program)) = Some [uint8 0xEF].
Proof. vm_compute. reflexivity. Qed.

Example scenario_self_replace :
  halted_with (spin 40 quiet_env (load replace_program)) = Some ["B"%byte].
Proof. vm_compute. reflexivity. Qed.

Example scenario_EOF_sentinel :
  halted_with (spin 10 eof_env (load [0xB0000000; 0xA0000000; 0x70000000]))
  = Some [uint8 0xFF].
Proof. vm_compute. reflexivity. Qed.

(** Division by zero, an index out of range and running off the end of the
    program are run-time panics. *)
Example scenario_panics :
  spin 1 quiet_env (load [std 5 0 0 0]) = Panic ∧
  spin 2 quiet_env (load [ortho 2 5; std 1 0 1 2; std 7 0 0 0]) = Panic ∧
  spin 2 quiet_env (load [ortho 2 5]) = Panic.
Proof. split_and!; vm_compute; reflexivity. Qed.


(** ** Bit fields *)

Lemma bits_lt lo len x : bits lo len x < 2 ^ len.
Proof. unfold bits. apply N.mod_lt, N.pow_nonzero. discriminate. Qed.

Lemma shiftr_land_ones x lo len :
  N.shiftr (N.land x (N.shiftl (N.ones len) lo)) lo = bits lo len x.
Proof.
  unfold bits.
  rewrite N.shiftr_land, N.shiftr_shiftl_l, N.sub_diag, N.shiftl_0_r by reflexivity.
  by rewrite N.land_ones, N.shiftr_div_pow2.
Qed.

Lemma land_shifted_ones x lo len :
  N.land x (N.shiftl (N.ones len) lo) = N.shiftl (bits lo len x) lo.
Proof.
  rewrite <- shiftr_land_ones.
  apply N.bits_inj; intros n.
  destruct (decide (n < lo)) as [Hlt | Hge].
  - rewrite N.land_spec, !N.shiftl_spec_low by done. apply andb_false_r.
  - rewrite (N.shiftl_spec_high' _ lo n) by lia.
    rewrite N.shiftr_spec'. by replace (n - lo + lo) with n by lia.
Qed.

Lemma reg_spec n : n < 8 → fin_to_nat (reg n) = N.to_nat n.
Proof.
  intros Hn.
  assert (n = 0 ∨ n = 1 ∨ n = 2 ∨ n = 3 ∨ n = 4 ∨ n = 5 ∨ n = 6 ∨ n = 7)
    as Hcases by lia.
  by repeat (destruct Hcases as [-> | Hcases]); [.. | subst n].
Qed.

Lemma opcode_bits i : opcode i = N.shiftl (bits 28 4 i) 28.
Proof. apply (land_shifted_ones i 28 4). Qed.

Lemma regA_bits i : fin_to_nat (regA i) = N.to_nat (bits 6 3 i).
Proof.
  pose proof (shiftr_land_ones i 6 3) as H.
  change (N.shiftl (N.ones 3) 6) with 0x1C0 in H.
  unfold regA. rewrite H. apply reg_spec, (bits_lt 6 3).
Qed.

Lemma regB_bits i : fin_to_nat (regB i) = N.to_nat (bits 3 3 i).
Proof.
  pose proof (shiftr_land_ones i 3 3) as H.
  change (N.shiftl (N.ones 3) 3) with 0x38 in H.
  unfold regB. rewrite H. apply reg_spec, (bits_lt 3 3).
Qed.

Lemma regC_bits i : fin_to_nat (regC i) = N.to_nat (bits 0 3 i).
Proof.
  pose proof (shiftr_land_ones i 0 3) as H.
  change (N.shiftl (N.ones 3) 0) with 0x7 in H. rewrite N.shiftr_0_r in H.
  unfold regC. rewrite H. apply reg_spec, (bits_lt 0 3).
Qed.

Lemma regO_bits i : fin_to_nat (regO i) = N.to_nat (bits 25 3 i).
Proof.
  pose proof (shiftr_land_ones i 25 3) as H.
  change (N.shiftl (N.ones 3) 25) with 0x0e000000 in H.
  unfold regO. rewrite H. apply reg_spec, (bits_lt 25 3).
Qed.

Lemma immediate_bits i : immediate i = bits 0 25 i.
Proof.
  unfold immediate, bits. change 0x01ffffff with (N.ones 25).
  by rewrite N.land_ones, N.pow_0_r, N.div_1_r.
Qed.

(** ** The dispatcher selects by operator number *)

Lemma number_cases i :
  let k := bits 28 4 i in
  k = 0 ∨ k = 1 ∨ k = 2 ∨ k = 3 ∨ k = 4 ∨ k = 5 ∨ k = 6 ∨ k = 7 ∨ k = 8 ∨
  k = 9 ∨ k = 10 ∨ k = 11 ∨ k = 12 ∨ k = 13 ∨ k = 14 ∨ k = 15.
Proof. intros k. pose proof (bits_lt 28 4 i) as H. change (2 ^ 4) with 16 in H. lia. Qed.

Ltac by_number i :=
  let H := fresh "Hnum" in
  pose proof (number_cases i) as H; cbv zeta in H;
  repeat (destruct H as [H | H]).

Lemma dispatch_select i ph e um :
  dispatch i ph e um = spec_dispatch (bits 28 4 i) i ph e um.
Proof.
  unfold dispatch. rewrite opcode_bits.
  by_number i; rewrite Hnum; reflexivity.
Qed.

Lemma bits_low_field lo len i :
  lo + len <= 9 → bits lo len (bits 0 9 i) = bits lo len i.
Proof.
  intros Hle. unfold bits. rewrite N.pow_0_r, N.div_1_r.
  replace 9 with (lo + (9 - lo)) by lia.
  rewrite N.pow_add_r, N.Div0.mod_mul_r, N.mul_comm, N.div_add by
    (apply N.pow_nonzero; discriminate).
  rewrite (N.div_small (i mod 2 ^ lo)) by (apply N.mod_lt, N.pow_nonzero; discriminate).
  rewrite N.add_0_l.
  replace (9 - lo) with (len + (9 - lo - len)) by lia.
  rewrite N.pow_add_r, N.Div0.mod_mul_r, N.mul_comm, N.Div0.mod_add.
  apply N.Div0.mod_mod.
Qed.

Lemma narrow_registers i j :
  bits 0 9 j = bits 0 9 i → regA j = regA i ∧ regB j = regB i ∧ regC j = regC i.
Proof.
  intros H.
  split_and!; apply (inj fin_to_nat).
  - by rewrite !regA_bits, <- (bits_low_field 6 3 j), H, bits_low_field.
  - by rewrite !regB_bits, <- (bits_low_field 3 3 j), H, bits_low_field.
  - by rewrite !regC_bits, <- (bits_low_field 0 3 j), H, bits_low_field.
Qed.

Lemma setR_same r v um : R (setR r v um) r = v.
Proof. unfold R, setR. simpl. apply vlookup_insert. Qed.

Lemma setR_other r r' v um : r ≠ r' → R (setR r v um) r' = R um r'.
Proof. intros Hne. unfold R, setR. simpl. by apply vlookup_insert_ne. Qed.

(** ** What the checkpointer leaves alone *)

Lemma doBackup_disk_only e b um :
  ∃ d, doBackup e b um = set_disk d um.
Proof.
  unfold doBackup.
  destruct (tempfile_ok e), (encode_ok e), (b && create_ok e); simpl; eauto.
Qed.

Lemma backup_frame e um :
  Gpr (backup e um) = Gpr um ∧ Heap (backup e um) = Heap um ∧
  NextHeap (backup e um) = NextHeap um ∧ ExFinger (backup e um) = ExFinger um ∧
  arrays (backup e um) = arrays um ∧ consoleOut (backup e um) = consoleOut um ∧
  backupFolder (backup e um) = backupFolder um.
Proof.
  unfold backup. case_decide; [case_match |]; try done.
  destruct (doBackup_disk_only e (15 * Minute <? Since (clock_archive e) (lastBackup um))%Z um)
    as [d ->].
  done.
Qed.

Lemma backup_Gpr e um : Gpr (backup e um) = Gpr um.
Proof. apply backup_frame. Qed.

(** ** Registers *)

Ltac unfold_ops :=
  unfold op_conditional_move, op_array_index, op_array_amendment, op_addition,
    op_multiplication, op_division, op_not_and, op_halt, op_allocation,
    op_abandonment, op_output, op_input, op_load_program, op_orthography,
    continue in *.

Ltac um_simpl :=
  cbn [Gpr Heap NextHeap ExFinger consoleOut backupFolder lastBackup arrays disk
       set_Gpr set_Heap set_NextHeap set_ExFinger set_consoleOut set_lastBackup
       set_arrays set_disk setR mach programHeap fst snd final continue] in *.

Lemma allocateHeapArray_eq len um :
  allocateHeapArray len um =
  (sub32 (wrap32 (NextHeap um + 1)) 1,
   set_NextHeap (wrap32 (NextHeap um + 1))
     (set_arrays (arrays um ++ [make len])
        (set_Heap (<[NextHeap um := length (arrays um)]> (Heap um)) um))).
Proof. reflexivity. Qed.

Ltac inv_final H :=
  unfold_ops; rewrite ?allocateHeapArray_eq in H;
  repeat (case_decide || case_match); um_simpl;
  try discriminate;
  repeat match goal with H : Some _ = Some _ |- _ => injection H as <- end;
  um_simpl.

Lemma vinsert_overwrite {A n} (i : fin n) (x y : A) (v : vec A n) :
  vinsert i x (vinsert i y v) = vinsert i x v.
Proof.
  apply vec_eq; intros j. destruct (decide (i = j)) as [-> | Hne].
  - by rewrite !vlookup_insert.
  - by rewrite !vlookup_insert_ne.
Qed.

(** The registers after an operation: as before, or with the destination
    of the instruction overwritten. *)
Lemma dispatch_Gpr i ph e um um' :
  final (dispatch i ph e um) = Some um' →
  Gpr um' = Gpr um ∨
  ∃ r v, destination i = Some r ∧ Gpr um' = vinsert r v (Gpr um).
Proof.
  rewrite dispatch_select. unfold destination.
  by_number i; rewrite Hnum; cbn [spec_dispatch]; intros H; clear Hnum;
    inv_final H; rewrite ?vinsert_overwrite, ?backup_Gpr; eauto.
Qed.

(** C9. An iteration that does not panic writes no register but the
    destination the instruction names (A for the operators 0, 1, 3, 4, 5, 6
    and 13, B for 8, C for 11); the operators 2, 7, 9, 10 and 12 leave all
    eight registers as they were. *)
Theorem register_frame (e : Env) (s : SpinState) (i : platter) :
  fetch s = Some i →
  ∀ um', final (spin_step e s) = Some um' →
    (∀ r, destination i ≠ Some r → Gpr um' !!! r = Gpr (mach s) !!! r) ∧
    (bits 28 4 i ∈ [2; 7; 9; 10; 12] → Gpr um' = Gpr (mach s)).
Proof.
  intros Hfetch um' Hfinal.
  unfold spin_step in Hfinal. rewrite Hfetch in Hfinal.
  apply dispatch_Gpr in Hfinal. um_simpl.
  destruct Hfinal as [-> | (d & v & Hd & ->)]; [done |].
  split.
  - intros r Hr. apply vlookup_insert_ne. congruence.
  - intros Hin. unfold destination in Hd.
    rewrite !elem_of_cons, elem_of_nil in Hin.
    destruct Hin as [Hk | [Hk | [Hk | [Hk | [Hk | []]]]]];
      rewrite Hk in Hd; discriminate Hd.
Qed.

(** The first instruction of the echo program, an Orthography, writes
    register 0 only. *)
Lemma register_frame_witness :
  let s := spin_init echo_machine in
  let um' := mach (iterate 1 quiet_env s) in
  (∀ r, destination 0xD0000041 ≠ Some r → Gpr um' !!! r = Gpr (mach s) !!! r) ∧
  (bits 28 4 0xD0000041 ∈ [2; 7; 9; 10; 12] → Gpr um' = Gpr (mach s)).
Proof.
  intros s um'.
  apply (register_frame quiet_env s 0xD0000041); vm_compute; reflexivity.
Defined.

(** ** Input *)

Lemma input_step e s i :
  fetch s = Some i → bits 28 4 i = 11 →
  spin_step e s =
  op_input i (programHeap s) e (set_ExFinger (ExFinger (mach s) + 1) (mach s)).
Proof.
  intros Hfetch Hnum. unfold spin_step.
  by rewrite Hfetch, dispatch_select, Hnum.
Qed.

(** C1, as amended.  Opcode 11 does one read of one byte.  When the read
    delivers a byte and reports no error, register C holds that byte
    afterwards, a value below 256, and the machine runs on.  When the read
    signals the end of input and delivers no byte, register C holds
    0xFFFFFFFF afterwards and the machine runs on.  When the read reports
    another error the machine halts with it.  For the reads of the first two
    kinds register C is 0xFFFFFFFF afterwards exactly when the end of input
    was signalled.  (A read that delivers a byte together with the
    end-of-input signal, or neither a byte nor an error, is not covered.) *)
Theorem input_register (e : Env) (s : SpinState) (i : platter) :
  fetch s = Some i → bits 28 4 i = 11 →
  let r := consoleIn e in
  (err r = None → count r = 1%Z →
     ∃ um', spin_step e s = continue um' (programHeap s) ∧
       R um' (regC i) = Byte.to_N (ip0 r) ∧ R um' (regC i) < 256) ∧
  (err r = Some EOF → count r ≠ 1%Z →
     ∃ um', spin_step e s = continue um' (programHeap s) ∧
       R um' (regC i) = 0xffffffff) ∧
  (∀ msg, err r = Some (OtherError msg) →
     ∃ um', spin_step e s = Halted um' (Some ("error reading from stdin: " +:+ msg))) ∧
  ((err r = None ∧ count r = 1%Z) ∨ (err r = Some EOF ∧ count r ≠ 1%Z) →
     ∃ um', spin_step e s = continue um' (programHeap s) ∧
       (R um' (regC i) = 0xffffffff ↔ err r = Some EOF)).
Proof.
  intros Hfetch Hnum r.
  pose proof (Byte.to_N_bounded (ip0 r)) as Hbyte.
  rewrite (input_step e s i Hfetch Hnum).
  unfold op_input, continue. fold r. unfold R.
  split_and!.
  - intros -> Hc. rewrite decide_True by done.
    eexists. split; [reflexivity |]. um_simpl. rewrite vlookup_insert.
    split; [done | lia].
  - intros -> Hc. rewrite decide_False by done.
    eexists. split; [reflexivity |]. um_simpl. by rewrite vlookup_insert.
  - intros msg ->. eexists. reflexivity.
  - intros [[-> Hc] | [-> Hc]].
    + rewrite decide_True by done.
      eexists. split; [reflexivity |]. um_simpl. rewrite vlookup_insert.
      split; [lia | done].
    + rewrite decide_False by done.
      eexists. split; [reflexivity |]. um_simpl. by rewrite vlookup_insert.
Qed.

(** The Input of the echo program, reading the byte 'B'. *)
Lemma input_register_witness :
  ∃ um', spin_step quiet_env at_input = continue um' (programHeap at_input) ∧
    R um' (regC 0xB0000000) = Byte.to_N "B"%byte ∧
    (R um' (regC 0xB0000000) = 0xffffffff ↔ err (consoleIn quiet_env) = Some EOF).
Proof.
  destruct (input_register quiet_env at_input 0xB0000000) as (Hbyte & _ & _ & Hiff).
  - vm_compute; reflexivity.
  - vm_compute; reflexivity.
  - destruct Hbyte as (um' & Hstep & HR & _); [reflexivity | reflexivity |].
    destruct Hiff as (um'' & Hstep' & Hiff); [left; split; reflexivity |].
    exists um'. split; [exact Hstep |]. split; [exact HR |].
    rewrite Hstep in Hstep'. injection Hstep' as <-. exact Hiff.
Defined.

(** C1, the claim as stated fails: a read may deliver its last byte together
    with the end-of-input signal ([count = 1] and [err = io.EOF]); the byte
    'B' is delivered, and register C holds 0xFFFFFFFF, not the byte. *)
Lemma input_byte_lost_at_EOF :
  fetch at_input = Some 0xB0000000 ∧
  count (consoleIn last_byte_env) = 1%Z ∧
  ip0 (consoleIn last_byte_env) = "B"%byte ∧
  ∃ s', spin_step last_byte_env at_input = Running s' ∧
        R (mach s') (regC 0xB0000000) = 0xffffffff ∧
        R (mach s') (regC 0xB0000000) ≠ Byte.to_N (ip0 (consoleIn last_byte_env)).
Proof.
  split_and!; [vm_compute; reflexivity | reflexivity | reflexivity |].
  eexists. split; [vm_compute; reflexivity |].
  split; [vm_compute; reflexivity | vm_compute; discriminate].
Qed.

(** ** LoadProgram *)

Lemma lor_shiftl a b n : b < 2 ^ n → N.lor (N.shiftl a n) b = a * 2 ^ n + b.
Proof.
  intros Hb.
  assert (N.land (N.shiftl a n) b = 0) as Hdisjoint.
  { apply N.bits_inj; intros m. rewrite N.land_spec, N.bits_0.
    destruct (decide (m < n)) as [Hlt | Hge].
    - by rewrite N.shiftl_spec_low.
    - rewrite <- (N.mod_small b (2 ^ n)) by done.
      rewrite N.mod_pow2_bits_high by lia. apply andb_false_r. }
  rewrite <- N.lxor_lor, <- N.add_nocarry_lxor by done.
  by rewrite N.shiftl_mul_pow2.
Qed.

(** The platter of four bytes, most significant first. *)
Lemma be32_sum b0 b1 b2 b3 :
  be32 b0 b1 b2 b3 =
  Byte.to_N b0 * 2 ^ 24 + Byte.to_N b1 * 2 ^ 16 + Byte.to_N b2 * 2 ^ 8 + Byte.to_N b3.
Proof.
  pose proof (Byte.to_N_bounded b1). pose proof (Byte.to_N_bounded b2).
  pose proof (Byte.to_N_bounded b3).
  unfold be32.
  rewrite (lor_shiftl (Byte.to_N b2) _ 8) by (change (2 ^ 8) with 256; lia).
  rewrite (lor_shiftl (Byte.to_N b1) _ 16) by (change (2 ^ 16) with 65536; lia).
  rewrite (lor_shiftl (Byte.to_N b0) _ 24) by (change (2 ^ 24) with 16777216; lia).
  lia.
Qed.

Lemma to_N_uint8 x : Byte.to_N (uint8 x) = x mod 256.
Proof.
  unfold uint8. destruct (Byte.of_N (x mod 256)) as [b |] eqn:Hb.
  - by apply Byte.to_of_N.
  - apply Byte.of_N_None_iff in Hb. pose proof (N.mod_lt x 256). lia.
Qed.

Lemma be32_be_bytes p :
  p < 2 ^ 32 →
  be32 (uint8 (N.shiftr p 24)) (uint8 (N.shiftr p 16)) (uint8 (N.shiftr p 8)) (uint8 p) = p.
Proof.
  intros Hp. rewrite be32_sum, !to_N_uint8, !N.shiftr_div_pow2.
  change (2 ^ 32) with 4294967296 in Hp.
  change (2 ^ 24) with 16777216. change (2 ^ 16) with 65536. change (2 ^ 8) with 256.
  assert (p / 65536 = p / 256 / 256) as -> by (by rewrite N.Div0.div_div).
  assert (p / 16777216 = p / 256 / 256 / 256) as -> by (by rewrite !N.Div0.div_div).
  assert (256 ≠ 0) as Hnz by done.
  pose proof (N.div_mod p 256 Hnz). pose proof (N.mod_lt p 256 Hnz).
  pose proof (N.div_mod (p / 256) 256 Hnz). pose proof (N.mod_lt (p / 256) 256 Hnz).
  pose proof (N.div_mod (p / 256 / 256) 256 Hnz).
  pose proof (N.mod_lt (p / 256 / 256) 256 Hnz).
  pose proof (N.div_mod (p / 256 / 256 / 256) 256 Hnz).
  pose proof (N.mod_lt (p / 256 / 256 / 256) 256 Hnz).
  generalize dependent (p / 256 / 256 / 256 / 256).
  generalize dependent ((p / 256 / 256 / 256) mod 256).
  generalize dependent (p / 256 / 256 / 256).
  generalize dependent ((p / 256 / 256) mod 256).
  generalize dependent (p / 256 / 256).
  generalize dependent ((p / 256) mod 256).
  generalize dependent (p / 256).
  generalize dependent (p mod 256).
  intros. lia.
Qed.

(** Reading back the file of a program gives the program. *)
Lemma platters_be_bytes (program : list platter) :
  Forall (λ p, p < 2 ^ 32) program →
  platters (mjoin (be_bytes <$> program)) = program.
Proof.
  induction 1 as [| p program Hp _ IH]; [done |].
  change (be32 (uint8 (N.shiftr p 24)) (uint8 (N.shiftr p 16)) (uint8 (N.shiftr p 8))
            (uint8 p) :: platters (mjoin (be_bytes <$> program)) = p :: program).
  by rewrite be32_be_bytes, IH.
Qed.

Lemma length_platters n : ∀ data, length data = (4 * n)%nat → length (platters data) = n.
Proof.
  induction n as [| n IH]; intros data Hlen.
  - by destruct data.
  - destruct data as [| b0 [| b1 [| b2 [| b3 rest]]]]; cbn [length] in Hlen; try lia.
    cbn [platters length]. f_equal. apply IH. lia.
Qed.

(** The platter at position [k] is made of the bytes at [4k .. 4k+3]. *)
Lemma lookup_platters k : ∀ data b0 b1 b2 b3,
  data !! (4 * k)%nat = Some b0 → data !! (4 * k + 1)%nat = Some b1 →
  data !! (4 * k + 2)%nat = Some b2 → data !! (4 * k + 3)%nat = Some b3 →
  platters data !! k = Some (be32 b0 b1 b2 b3).
Proof.
  induction k as [| k IH]; intros data c0 c1 c2 c3 H0 H1 H2 H3.
  - destruct data as [| b0 [| b1 [| b2 [| b3 rest]]]]; simplify_eq/=. done.
  - replace (4 * S k)%nat with (S (S (S (S (4 * k))))) in * by lia.
    destruct data as [| b0 [| b1 [| b2 [| b3 rest]]]]; try done.
    cbn [platters]. rewrite lookup_cons. apply IH; done.
Qed.

Lemma length_make len : length (make len) = N.to_nat len.
Proof. apply length_replicate. Qed.

Lemma wrap32_le n : wrap32 n <= n.
Proof. apply N.Div0.mod_le. Qed.

Lemma wrap32_small n : n < 2 ^ 32 → wrap32 n = n.
Proof. apply N.mod_small. Qed.

(** [copy] into a slice that is not longer than the source. *)
Lemma copy_make len src :
  (N.to_nat len ≤ length src)%nat → copy (make len) src = take (N.to_nat len) src.
Proof.
  intros Hle. unfold copy. rewrite length_make.
  rewrite drop_ge by (rewrite length_make; lia). apply app_nil_r.
Qed.

Lemma binary_Read_whole data n :
  length data = (4 * n)%nat →
  binary_Read data (numPlatters data) = Some (platters data).
Proof.
  intros Hlen. unfold binary_Read, numPlatters. rewrite Hlen.
  replace ((4 * n + 3) / 4)%nat with n.
  - rewrite decide_False by lia. f_equal.
    apply take_ge. by rewrite (length_platters n).
  - apply Nat.div_unique with 3%nat; lia.
Qed.

(** Loading a file of [n] groups of four bytes into a new machine: the
    segment under the identifier 0 has [n] modulo 2^32 platters. *)
Lemma LoadProgram_New folder data n :
  length data = (4 * n)%nat →
  ∃ um', LoadProgram {| bytes_read := data; read_error := None |} (New folder)
           = (um', None) ∧
    Heap um' = {[0 := 0%nat]} ∧
    arrays um' = [take (N.to_nat (wrap32 (N.of_nat n))) (platters data)] ∧
    NextHeap um' = 1 ∧ ExFinger um' = 0%Z ∧ Gpr um' = vreplicate 8 0.
Proof.
  intros Hlen. unfold LoadProgram. cbn [read_error bytes_read].
  rewrite (binary_Read_whole data n Hlen), (length_platters n data Hlen).
  rewrite allocateHeapArray_eq. unfold New. um_simpl.
  change (sub32 (wrap32 (0 + 1)) 1) with 0. change (wrap32 (0 + 1)) with 1.
  rewrite lookup_insert_eq. eexists. split; [reflexivity |]. um_simpl.
  split_and!; try done.
  cbn [app elems lookup list_lookup default from_option length insert list_insert id].
  rewrite copy_make; [done |].
  rewrite (length_platters n data Hlen). pose proof (wrap32_le (N.of_nat n)). lia.
Qed.

(** C6, as amended.  For a byte stream of [n] groups of four bytes, [n]
    below 2^32, [LoadProgram] on a new machine returns no error and makes
    segment 0 the sequence of the [n] platters of the stream, each the
    big-endian value of its four bytes; the file of a program of platters
    gives that program back; afterwards segment 0 is the only segment, the
    next-identifier counter is 1 and the execution finger 0. *)
Theorem LoadProgram_installs (folder : string) (data : list byte) (n : nat) :
  length data = (4 * n)%nat → N.of_nat n < 2 ^ 32 →
  ∃ um', LoadProgram {| bytes_read := data; read_error := None |} (New folder)
           = (um', None) ∧
    segment um' 0 = platters data ∧
    length (segment um' 0) = n ∧
    (∀ k b0 b1 b2 b3,
       data !! (4 * k)%nat = Some b0 → data !! (4 * k + 1)%nat = Some b1 →
       data !! (4 * k + 2)%nat = Some b2 → data !! (4 * k + 3)%nat = Some b3 →
       segment um' 0 !! k =
         Some (Byte.to_N b0 * 2 ^ 24 + Byte.to_N b1 * 2 ^ 16 +
               Byte.to_N b2 * 2 ^ 8 + Byte.to_N b3)) ∧
    (∀ program, Forall (λ p, p < 2 ^ 32) program →
       data = bytes_read (program_file program) → segment um' 0 = program) ∧
    dom (Heap um') = {[0]} ∧ NextHeap um' = 1 ∧ ExFinger um' = 0%Z.
Proof.
  intros Hlen Hn.
  destruct (LoadProgram_New folder data n Hlen) as (um' & HL & HH & HA & HN & HF & _).
  exists um'. split; [done |].
  assert (segment um' 0 = platters data) as Hseg.
  { unfold segment. rewrite HH, HA, lookup_singleton_eq.
    cbn [elems lookup list_lookup default from_option id].
    rewrite wrap32_small, Nat2N.id by done.
    apply take_ge. by rewrite (length_platters n). }
  rewrite Hseg. split_and!; try done.
  - by apply length_platters.
  - intros k b0 b1 b2 b3 H0 H1 H2 H3. rewrite <- be32_sum.
    by apply lookup_platters.
  - intros program Hprogram ->. by apply platters_be_bytes.
  - rewrite HH. apply dom_singleton_L.
Qed.

(** The file of the echo program, four groups of four bytes. *)
Lemma LoadProgram_installs_witness :
  ∃ um', LoadProgram (program_file echo_program) (New "") = (um', None) ∧
    segment um' 0 = platters (bytes_read (program_file echo_program)) ∧
    length (segment um' 0) = 4%nat ∧
    (∀ k b0 b1 b2 b3,
       bytes_read (program_file echo_program) !! (4 * k)%nat = Some b0 →
       bytes_read (program_file echo_program) !! (4 * k + 1)%nat = Some b1 →
       bytes_read (program_file echo_program) !! (4 * k + 2)%nat = Some b2 →
       bytes_read (program_file echo_program) !! (4 * k + 3)%nat = Some b3 →
       segment um' 0 !! k =
         Some (Byte.to_N b0 * 2 ^ 24 + Byte.to_N b1 * 2 ^ 16 +
               Byte.to_N b2 * 2 ^ 8 + Byte.to_N b3)) ∧
    (∀ program, Forall (λ p, p < 2 ^ 32) program →
       bytes_read (program_file echo_program) = bytes_read (program_file program) →
       segment um' 0 = program) ∧
    dom (Heap um') = {[0]} ∧ NextHeap um' = 1 ∧ ExFinger um' = 0%Z.
Proof.
  apply (LoadProgram_installs "" (bytes_read (program_file echo_program)) 4);
    vm_compute; reflexivity.
Defined.

(** C6, the claim as stated fails: the length of the program is converted
    to a platter before segment 0 is made, so a stream of 2^32 groups of four
    bytes loads without an error into an empty segment 0. *)
Lemma LoadProgram_truncates :
  let n := N.to_nat (2 ^ 32) in
  let data := replicate (4 * n) "000"%byte in
  length data = (4 * n)%nat ∧
  ∃ um', LoadProgram {| bytes_read := data; read_error := None |} (New "")
           = (um', None) ∧
    segment um' 0 = [] ∧ length (platters data) = n ∧ n ≠ 0%nat.
Proof.
  intros n data.
  assert (length data = (4 * n)%nat) as Hlen by apply length_replicate.
  split; [exact Hlen |].
  destruct (LoadProgram_New "" data n Hlen) as (um' & HL & HH & HA & _).
  exists um'. split; [exact HL |].
  assert (wrap32 (N.of_nat n) = 0) as Hwrap.
  { unfold n. rewrite N2Nat.id. reflexivity. }
  split_and!.
  - unfold segment. rewrite HH, HA, lookup_singleton_eq, Hwrap. reflexivity.
  - exact (length_platters n data Hlen).
  - intros Hn. apply (f_equal N.of_nat) in Hn. unfold n in Hn.
    rewrite N2Nat.id in Hn. discriminate Hn.
Qed.

Lemma binary_Read_short data :
  binary_Read data (numPlatters data) = None ↔ (length data mod 4 ≠ 0)%nat.
Proof.
  unfold binary_Read, numPlatters.
  pose proof (Nat.div_mod_eq (length data + 3) 4) as H1.
  pose proof (Nat.mod_upper_bound (length data + 3) 4) as H2.
  pose proof (Nat.div_mod_eq (length data) 4) as H3.
  pose proof (Nat.mod_upper_bound (length data) 4) as H4.
  generalize dependent ((length data + 3) `div` 4)%nat.
  generalize dependent ((length data + 3) `mod` 4)%nat.
  generalize dependent (length data `div` 4)%nat.
  generalize dependent (length data `mod` 4)%nat.
  intros r q H3 H4 r' q' H1 H2.
  case_decide; split; intros; (done || lia).
Qed.

(** C7. When [LoadProgram] returns an error the machine is as it was
    before the call: registers, heap, next-identifier counter, execution
    finger and all the rest.  It returns one exactly when reading the stream
    failed or the stream is not a whole number of groups of four bytes. *)
Theorem LoadProgram_error (p : Stream) (um : UniversalMachine) :
  (∀ um' msg, LoadProgram p um = (um', Some msg) → um' = um) ∧
  (is_Some (LoadProgram p um).2 ↔
     is_Some (read_error p) ∨ (length (bytes_read p) mod 4 ≠ 0)%nat).
Proof.
  pose proof (binary_Read_short (bytes_read p)) as Hshort.
  unfold LoadProgram.
  destruct (read_error p) as [io |]; cbn [snd].
  { split; [by intros um' msg [= <- _] | split; eauto]. }
  destruct (binary_Read (bytes_read p) (numPlatters (bytes_read p))) as [program |].
  - rewrite allocateHeapArray_eq. split; [intros um' msg; by case_match |].
    cbn [snd]. split.
    + by intros [? ?].
    + intros [[? ?] | Hlen]; [done |]. by apply Hshort in Hlen.
  - split; [by intros um' msg [= <- _] |].
    cbn [snd]. split; [| eauto]. intros _. right. by apply Hshort.
Qed.

(** ** The checkpointer *)

Lemma doBackup_disk e b um :
  ∃ d, doBackup e b um = set_disk (disk um ++ d) um ∧ d ≠ [] ∧
    (checkpoint_written d ↔ tempfile_ok e = true ∧ encode_ok e = true) ∧
    (∀ w, TempFileWritten w ∈ d → w = gob_encode um) ∧
    (archive_written d ↔
       tempfile_ok e = true ∧ encode_ok e = true ∧ create_ok e = true ∧ b = true) ∧
    (∀ name w, ArchiveWritten name w ∈ d → name = clock_name e ∧ w = gob_encode um).
Proof.
  unfold doBackup, checkpoint_written, archive_written.
  destruct (tempfile_ok e), (encode_ok e), b, (create_ok e), (rename_ok e);
    cbn [negb andb set_disk disk]; rewrite <- ?(assoc_L (++)); cbn [app];
    (eexists; split; [reflexivity |]);
    repeat setoid_rewrite elem_of_cons; setoid_rewrite elem_of_nil;
    naive_solver.
Qed.

(** C8, as amended.  [backup] touches nothing but the disk and the time of
    the last checkpoint.  Without a backup folder, and also when no more than
    60 seconds have passed since the last checkpoint, it does nothing at all.
    With a folder and more than 60 seconds passed it attempts a checkpoint
    and sets the time of the last checkpoint to the current time, whether
    the attempt succeeded or not; the snapshot is written when the temporary
    file could be made and encoded; the archive copy is written as well
    exactly when more than 900 seconds have passed and the archive file
    could be created. *)
Theorem backup_policy (e : Env) (um : UniversalMachine) :
  let gate := Since (clock_gate e) (lastBackup um) in
  let archive := Since (clock_archive e) (lastBackup um) in
  ∃ d, backup e um =
         set_lastBackup (if decide (d = []) then lastBackup um else clock_done e)
           (set_disk (disk um ++ d) um) ∧
    (backupFolder um = "" → d = []) ∧
    ((gate <= Minute)%Z → d = []) ∧
    (backupFolder um ≠ "" → (Minute < gate)%Z →
       d ≠ [] ∧
       (checkpoint_written d ↔ tempfile_ok e = true ∧ encode_ok e = true) ∧
       (archive_written d ↔
          tempfile_ok e = true ∧ encode_ok e = true ∧ create_ok e = true ∧
          (15 * Minute < archive)%Z)) ∧
    (∀ w, TempFileWritten w ∈ d → w = gob_encode um) ∧
    (∀ name w, ArchiveWritten name w ∈ d → w = gob_encode um).
Proof.
  intros gate archive. unfold backup. fold gate. fold archive.
  case_decide as Hfolder.
  - destruct (Minute <? gate)%Z eqn:Hgate.
    + apply Z.ltb_lt in Hgate.
      destruct (doBackup_disk e (15 * Minute <? archive)%Z um)
        as (d & -> & Hd & Hcp & Hw & Har & Haw).
      exists d. rewrite decide_False by done. split; [done |].
      split_and!; try done; try lia.
      * intros _ _. split_and!; try done.
        rewrite Har, Z.ltb_lt. done.
      * intros name w Hin. by apply Haw in Hin as [_ ->].
    + apply Z.ltb_ge in Hgate. exists []. rewrite decide_True by done.
      rewrite app_nil_r. split; [by destruct um |].
      split_and!; try done; try lia; intros; set_solver.
  - exists []. rewrite decide_True by done. rewrite app_nil_r.
    split; [by destruct um |].
    split_and!; try done; intros; set_solver.
Qed.

(** C8, the claim as stated fails: with a folder configured, the file
    system working and 900 seconds passed since the last checkpoint, which
    is at least 900 seconds, the checkpoint is written without an archive
    copy. *)
Lemma no_archive_at_900_seconds :
  backupFolder checkpointed_machine = "/backup" ∧
  lastBackup checkpointed_machine = 0%Z ∧
  Since (clock_archive late_env) (lastBackup checkpointed_machine)
    = (900 * 1000000000)%Z ∧
  disk (backup late_env checkpointed_machine) =
    disk checkpointed_machine ++
      [TempFileWritten (gob_encode checkpointed_machine); Renamed] ∧
  ¬ archive_written [TempFileWritten (gob_encode checkpointed_machine); Renamed].
Proof.
  split_and!; try (vm_compute; reflexivity).
  intros (name & w & Hin). repeat setoid_rewrite elem_of_cons in Hin.
  setoid_rewrite elem_of_nil in Hin. naive_solver.
Qed.

(** ** Slices of the heap and their backing arrays *)

Lemma elems_app_l a a' (sl : option loc) :
  (∀ l, sl = Some l → (l < length a)%nat) → elems (a ++ a') sl = elems a sl.
Proof.
  intros Hsl. destruct sl as [l |]; [| done].
  cbn [elems]. by rewrite lookup_app_l by auto.
Qed.

Lemma elems_app_new a x : elems (a ++ [x]) (Some (length a)) = x.
Proof. cbn [elems]. by rewrite list_lookup_middle. Qed.

(** Storing through one slice leaves the elements of every other alone. *)
Lemma store_other a l j v a' (sl : option loc) :
  store a (Some l) j v = Some a' → sl ≠ Some l → elems a' sl = elems a sl.
Proof.
  intros Hstore Hne. cbn [store] in Hstore.
  destruct (a !! l) as [x |]; [| done]. case_decide; [| done]. simplify_eq.
  destruct sl as [l' |]; [| done]. cbn [elems].
  rewrite list_lookup_insert_ne; [done | congruence].
Qed.

Lemma copy_whole src : copy (make (N.of_nat (length src))) src = src.
Proof. rewrite copy_make, Nat2N.id; [apply firstn_all | lia]. Qed.

(** ** The instruction format *)

(** The cases of the switch do what the rows of the table say, for the
    registers the instruction names. *)
Lemma dispatch_table i ph e um :
  bits 28 4 i <= 12 →
  dispatch i ph e um =
  opcode_table (bits 28 4 i) (regA i) (regB i) (regC i) ph e um.
Proof.
  intros Hle. rewrite dispatch_select.
  by_number i; rewrite Hnum in Hle |- *; try lia; clear Hnum Hle;
    cbn [spec_dispatch opcode_table]; unfold_ops; unfold R, setR, index, segment, not32,
      wrap32; try reflexivity.
  - (* Conditional Move *)
    by repeat case_decide.
  - (* Load Program *)
    cbv zeta. fold (segment um (Gpr um !!! regB i)).
    repeat case_decide; try done.
    rewrite copy_whole. cbn [Heap Gpr set_Heap set_arrays]. by rewrite lookup_insert_eq.
Qed.

(** C5. The dispatcher takes the operator number from the four most
    significant bits of the instruction.  For the operator numbers 0 to 12
    it does what the row of that number in the table of opcodes says, with
    the register of bits 6..8 in the place of A, that of bits 3..5 in the
    place of B and that of bits 0..2 in the place of C; two such
    instructions that agree on the operator number and on bits 0..8 do the
    same, whatever their bits 9..27.  Orthography takes its register from
    bits 25..27 and stores the field of bits 0..24, a value below 2^25, in
    it.  The operator numbers 14 and 15 do nothing. *)
Theorem instruction_format (i : platter) (ph : option loc) (e : Env)
    (um : UniversalMachine) :
  opcode i = N.shiftl (bits 28 4 i) 28 ∧
  dispatch i ph e um = spec_dispatch (bits 28 4 i) i ph e um ∧
  fin_to_nat (regA i) = N.to_nat (bits 6 3 i) ∧
  fin_to_nat (regB i) = N.to_nat (bits 3 3 i) ∧
  fin_to_nat (regC i) = N.to_nat (bits 0 3 i) ∧
  (∀ A B C : fin 8,
     fin_to_nat A = N.to_nat (bits 6 3 i) → fin_to_nat B = N.to_nat (bits 3 3 i) →
     fin_to_nat C = N.to_nat (bits 0 3 i) → bits 28 4 i <= 12 →
     dispatch i ph e um = opcode_table (bits 28 4 i) A B C ph e um) ∧
  (∀ j, bits 28 4 j = bits 28 4 i → bits 28 4 i <= 12 →
        bits 0 9 j = bits 0 9 i → dispatch j ph e um = dispatch i ph e um) ∧
  (bits 28 4 i = 13 →
     fin_to_nat (regO i) = N.to_nat (bits 25 3 i) ∧
     dispatch i ph e um = continue (setR (regO i) (bits 0 25 i) um) ph ∧
     (∀ O : fin 8, fin_to_nat O = N.to_nat (bits 25 3 i) →
        dispatch i ph e um =
        Running {| mach := set_Gpr (vinsert O (bits 0 25 i) (Gpr um)) um;
                   programHeap := ph |}) ∧
     R (setR (regO i) (bits 0 25 i) um) (regO i) = bits 0 25 i ∧
     bits 0 25 i < 2 ^ 25) ∧
  (13 < bits 28 4 i →
     dispatch i ph e um = Running {| mach := um; programHeap := ph |}).
Proof.
  split_and!.
  - apply opcode_bits.
  - apply dispatch_select.
  - apply regA_bits.
  - apply regB_bits.
  - apply regC_bits.
  - intros A B C HA HB HC Hle.
    rewrite <- regA_bits in HA. rewrite <- regB_bits in HB. rewrite <- regC_bits in HC.
    apply (inj fin_to_nat) in HA as ->. apply (inj fin_to_nat) in HB as ->.
    apply (inj fin_to_nat) in HC as ->. by apply dispatch_table.
  - intros j Hnum Hle Hlow.
    destruct (narrow_registers i j Hlow) as (HA & HB & HC).
    rewrite !dispatch_select, Hnum.
    by_number i; rewrite Hnum0 in *; try lia; simpl;
      unfold op_conditional_move, op_array_index, op_array_amendment, op_addition,
        op_multiplication, op_division, op_not_and, op_allocation, op_abandonment,
        op_output, op_input, op_load_program;
      rewrite ?HA, ?HB, ?HC; reflexivity.
  - intros H13. split_and!.
    + apply regO_bits.
    + rewrite dispatch_select, H13. simpl. unfold op_orthography.
      by rewrite immediate_bits.
    + intros O HO. rewrite <- regO_bits in HO. apply (inj fin_to_nat) in HO as ->.
      rewrite dispatch_select, H13. cbn [spec_dispatch]. unfold op_orthography.
      by rewrite immediate_bits.
    + apply setR_same.
    + apply bits_lt.
  - intros Hgt. rewrite dispatch_select.
    by_number i; rewrite Hnum in Hgt |- *; try lia; reflexivity.
Qed.

Lemma load_program_step e s i :
  fetch s = Some i → bits 28 4 i = 12 →
  spin_step e s =
  op_load_program i (programHeap s) (set_ExFinger (ExFinger (mach s) + 1) (mach s)).
Proof.
  intros Hfetch Hnum. unfold spin_step.
  by rewrite Hfetch, dispatch_select, Hnum.
Qed.

(** C4. Opcode 12 with a non-zero value [b] in register B makes segment 0
    a copy of segment [b], of the same length and with the same elements, in
    a backing array of its own, which no entry of the heap had before:
    storing through either of the two slices afterwards leaves the elements
    of the other as they are.  Every other entry of the heap, segment [b]
    among them, stays as it is.  With zero in register B the heap is
    unchanged.  In both cases the execution finger becomes the value of
    register C, and the registers and the counter keep their values. *)
Theorem load_program (e : Env) (s : SpinState) (i : platter) :
  wf s → fetch s = Some i → bits 28 4 i = 12 →
  let b := R (mach s) (regB i) in
  let c := R (mach s) (regC i) in
  ∃ s', spin_step e s = Running s' ∧
    ExFinger (mach s') = Z.of_N c ∧
    Gpr (mach s') = Gpr (mach s) ∧ NextHeap (mach s') = NextHeap (mach s) ∧
    (b = 0 →
       Heap (mach s') = Heap (mach s) ∧ arrays (mach s') = arrays (mach s) ∧
       programHeap s' = programHeap s) ∧
    (b ≠ 0 →
       segment (mach s') 0 = segment (mach s) b ∧
       length (segment (mach s') 0) = length (segment (mach s) b) ∧
       (∀ k, k ≠ 0 →
          Heap (mach s') !! k = Heap (mach s) !! k ∧
          segment (mach s') k = segment (mach s) k) ∧
       (is_Some (Heap (mach s) !! b) → is_Some (Heap (mach s') !! b)) ∧
       programHeap s' = Heap (mach s') !! 0 ∧
       ∃ l0, Heap (mach s') !! 0 = Some l0 ∧
         (∀ k, Heap (mach s) !! k ≠ Some l0) ∧
         Heap (mach s') !! b ≠ Some l0 ∧
         (∀ j v a', store (arrays (mach s')) (Some l0) j v = Some a' →
            elems a' (Heap (mach s') !! b) = segment (mach s') b) ∧
         (∀ j v a', store (arrays (mach s')) (Heap (mach s') !! b) j v = Some a' →
            elems a' (Some l0) = segment (mach s') 0)).
Proof.
  intros (Hheap & _ & _) Hfetch Hnum b c.
  rewrite (load_program_step e s i Hfetch Hnum).
  unfold op_load_program, continue. unfold R in *. um_simpl. fold b.
  destruct (decide (b ≠ 0)) as [Hb | Hb].
  - eexists. split; [reflexivity |]. um_simpl.
    split_and!; try done.
    intros _. fold (segment (mach s) b). rewrite copy_whole.
    assert (∀ k, k ≠ 0 →
              <[0 := length (arrays (mach s))]> (Heap (mach s)) !! k
              = Heap (mach s) !! k) as Hother
      by (intros k Hk; by rewrite lookup_insert_ne).
    assert (∀ k, Heap (mach s) !! k ≠ Some (length (arrays (mach s)))) as Hfresh
      by (intros k Hk; apply Hheap in Hk; lia).
    unfold segment. um_simpl. rewrite lookup_insert_eq, elems_app_new.
    split_and!; try done.
    + intros k Hk. rewrite (Hother k Hk). split; [done |].
      apply elems_app_l. intros l Hl. by apply (Hheap k).
    + rewrite (Hother b Hb). done.
    + eexists. split; [reflexivity |]. rewrite (Hother b Hb).
      split_and!; try done.
      * intros j v a' Hstore. rewrite (store_other _ _ _ _ _ _ Hstore) by done. done.
      * intros j v a' Hstore.
        destruct (Heap (mach s) !! b) as [lb |] eqn:Hlb; [| done].
        rewrite (store_other _ _ _ _ _ _ Hstore), elems_app_new; [done |].
        intros [= <-]. by apply (Hfresh b).
  - apply dec_stable in Hb. eexists. split; [reflexivity |]. um_simpl.
    split_and!; done.
Qed.

(** *** The invariant holds along every run *)

Lemma wf_slices_new h a ph k x :
  wf_slices h a ph →
  wf_slices (<[k := length a]> h) (a ++ [x]) ph ∧
  wf_slices (<[k := length a]> h) (a ++ [x]) (Some (length a)).
Proof.
  intros (Hheap & Hprog & Halias).
  assert (∀ k' l, <[k := length a]> h !! k' = Some l → (l < length (a ++ [x]))%nat)
    as Hheap'.
  { intros k' l. rewrite length_app, lookup_insert. cbn [length].
    case_decide; [intros [= <-]; lia | intros Hl; apply Hheap in Hl; lia]. }
  assert (∀ k1 k2 l, <[k := length a]> h !! k1 = Some l →
                     <[k := length a]> h !! k2 = Some l → k1 = k2) as Halias'.
  { intros k1 k2 l. rewrite !lookup_insert.
    repeat case_decide; subst; try done.
    - intros [= <-] Hl. apply Hheap in Hl. lia.
    - intros Hl [= <-]. apply Hheap in Hl. lia.
    - apply Halias. }
  split; (split; [done | split; [| done]]).
  - intros l Hl. apply Hprog in Hl. rewrite length_app. lia.
  - intros l [= <-]. rewrite length_app. cbn [length]. lia.
Qed.

Lemma wf_slices_delete h a ph k : wf_slices h a ph → wf_slices (delete k h) a ph.
Proof.
  intros (Hheap & Hprog & Halias). split_and!; [| done |].
  - intros k' l Hl. apply lookup_delete_Some in Hl as [_ Hl]. by apply (Hheap k').
  - intros k1 k2 l H1 H2. apply lookup_delete_Some in H1 as [_ H1].
    apply lookup_delete_Some in H2 as [_ H2]. by apply (Halias k1 k2 l).
Qed.

Lemma wf_slices_store h a ph sl j v a' :
  store a sl j v = Some a' → wf_slices h a ph → wf_slices h a' ph.
Proof.
  intros Hstore (Hheap & Hprog & Halias).
  assert (length a' = length a) as Hlen.
  { destruct sl as [l |]; [| done]. cbn [store] in Hstore.
    destruct (a !! l); [| done]. case_decide; [| done]. simplify_eq.
    apply length_insert. }
  split_and!; [| | done]; intros; rewrite Hlen; eauto.
Qed.

Lemma wf_spin_init_New folder p um :
  LoadProgram p (New folder) = (um, None) → wf (spin_init um).
Proof.
  unfold LoadProgram. destruct (read_error p); [done |].
  destruct (binary_Read _ _) as [program |]; [| done].
  rewrite allocateHeapArray_eq. unfold New. um_simpl.
  change (sub32 (wrap32 (0 + 1)) 1) with 0. rewrite lookup_insert_eq.
  intros [= <-]. unfold wf, spin_init. um_simpl. rewrite lookup_insert_eq.
  cbn [app insert list_insert].
  split_and!.
  - intros k l. rewrite lookup_insert. case_decide; [| done].
    intros [= <-]. cbn [length]. lia.
  - intros l [= <-]. cbn [length]. lia.
  - intros k1 k2 l. rewrite !lookup_insert. by repeat case_decide; subst.
Qed.

Lemma backup_slices e um :
  Heap (backup e um) = Heap um ∧ arrays (backup e um) = arrays um.
Proof. pose proof (backup_frame e um). naive_solver. Qed.

Lemma wf_step e s s' : wf s → spin_step e s = Running s' → wf s'.
Proof.
  unfold wf, spin_step. intros Hwf.
  destruct (fetch s) as [i |]; [| done]. rewrite dispatch_select.
  destruct (backup_slices e (set_ExFinger (ExFinger (mach s) + 1) (mach s)))
    as [HbH Hba].
  by_number i; rewrite Hnum; cbn [spec_dispatch]; clear Hnum;
    unfold_ops; rewrite ?allocateHeapArray_eq;
    intros Hstep; repeat (case_decide || case_match); simplify_eq; um_simpl;
    rewrite ?HbH, ?Hba; um_simpl;
    eauto using wf_slices_store, wf_slices_delete;
    rewrite ?lookup_insert_eq;
    first [ apply (proj1 (wf_slices_new _ _ _ _ _ Hwf))
          | apply (proj2 (wf_slices_new _ _ _ _ _ Hwf)) ].
Qed.

Lemma wf_iterate n e : ∀ s, wf s → wf (iterate n e s).
Proof.
  induction n as [| n IH]; intros s Hwf; [done |].
  cbn [iterate]. destruct (spin_step e s) as [s' | |] eqn:Hstep; [| done..].
  eauto using wf_step.
Qed.

(** Load Program from the empty segment 1 the copy program has just
    allocated. *)
Lemma load_program_witness :
  R (mach at_load_program) (regB 0xC0000008) = 1 ∧
  ∃ s', spin_step quiet_env at_load_program = Running s' ∧
        ExFinger (mach s') = 0%Z ∧
        segment (mach s') 0 = segment (mach at_load_program) 1 ∧
        Heap (mach s') !! 0 ≠ Heap (mach s') !! 1.
Proof.
  split; [vm_compute; reflexivity |].
  destruct (load_program quiet_env at_load_program 0xC0000008)
    as (s' & Hstep & Hfinger & _ & _ & _ & Hcopy).
  - apply wf_iterate, (wf_spin_init_New "" (program_file copy_program)).
    vm_compute; reflexivity.
  - vm_compute; reflexivity.
  - vm_compute; reflexivity.
  - exists s'. split; [exact Hstep |]. split; [exact Hfinger |].
    destruct Hcopy as (Hsame & _ & _ & _ & _ & l0 & Hl0 & _ & Hne & _).
    + vm_compute; discriminate.
    + split; [exact Hsame |]. rewrite Hl0. intros Heq. apply Hne. symmetry. exact Heq.
Defined.

(** ** Snapshots *)

Lemma heap_contents_lookup um k :
  heap_contents um !! k = (λ _, segment um k) <$> Heap um !! k.
Proof.
  unfold heap_contents, segment. rewrite lookup_fmap.
  by destruct (Heap um !! k).
Qed.

Lemma heap_contents_decode_entry um kv :
  wf_slices (Heap um) (arrays um) None →
  heap_contents (gob_decode_entry um kv) = <[kv.1 := kv.2]> (heap_contents um).
Proof.
  intros (Hheap & _ & _). unfold heap_contents, gob_decode_entry. um_simpl.
  rewrite fmap_insert, elems_app_new. f_equal.
  apply map_fmap_ext. intros k l Hl. apply elems_app_l.
  intros ? [= <-]. by apply (Hheap k).
Qed.

Lemma gob_decode_entries es : ∀ um,
  wf_slices (Heap um) (arrays um) None →
  let um' := foldl gob_decode_entry um es in
  wf_slices (Heap um') (arrays um') None ∧
  heap_contents um' = foldl (λ m kv, <[kv.1 := kv.2]> m) (heap_contents um) es ∧
  Gpr um' = Gpr um ∧ NextHeap um' = NextHeap um ∧ ExFinger um' = ExFinger um ∧
  backupFolder um' = backupFolder um.
Proof.
  induction es as [| kv es IH]; intros um Hwf; [done |].
  cbn [foldl].
  assert (wf_slices (Heap (gob_decode_entry um kv)) (arrays (gob_decode_entry um kv)) None)
    as Hwf' by apply (wf_slices_new _ _ _ _ _ Hwf).
  destruct (IH _ Hwf') as (? & -> & -> & -> & -> & ->).
  by rewrite heap_contents_decode_entry.
Qed.

(** Storing a list of entries with distinct keys, first to last. *)
Lemma lookup_foldl_insert {A} (es : list (N * A)) : ∀ (m : gmap N A) k,
  NoDup es.*1 →
  foldl (λ m kv, <[kv.1 := kv.2]> m) m es !! k =
  from_option Some (m !! k) ((list_to_map es : gmap N A) !! k).
Proof.
  induction es as [| [k1 v1] es IH]; intros m k Hnodup; [done |].
  apply NoDup_cons in Hnodup as [Hk1 Hnodup].
  cbn [foldl list_to_map foldr fst snd uncurry]. rewrite IH by done.
  destruct (decide (k = k1)) as [-> | Hne].
  - rewrite (not_elem_of_list_to_map_1 es k1) by done.
    by rewrite !lookup_insert_eq.
  - by rewrite !lookup_insert_ne.
Qed.

Lemma heap_contents_round_trip um um0 :
  wf_slices (Heap um0) (arrays um0) None → Heap um0 = ∅ →
  heap_contents (foldl gob_decode_entry um0 (sHeap (gob_encode um)))
  = heap_contents um.
Proof.
  intros Hwf Hempty.
  destruct (gob_decode_entries (sHeap (gob_encode um)) um0 Hwf) as (_ & -> & _).
  apply map_eq; intros k. cbn [gob_encode sHeap].
  rewrite lookup_foldl_insert.
  - unfold heap_contents at 1. rewrite Hempty, fmap_empty, lookup_empty.
    change (λ kl : N * loc, (kl.1, elems (arrays um) (Some kl.2)))
      with (prod_map (id : N → N) (λ l, elems (arrays um) (Some l))).
    rewrite list_to_map_fmap, list_to_map_to_list.
    fold (heap_contents um). by destruct (heap_contents um !! k).
  - rewrite <- list_fmap_compose.
    apply (NoDup_fst_map_to_list (Heap um)).
Qed.

(** The heap a stream of entries with distinct keys decodes to does not
    depend on the order of the entries. *)
Lemma gob_decode_order es es' um :
  es ≡ₚ es' → NoDup es.*1 → wf_slices (Heap um) (arrays um) None →
  heap_contents (foldl gob_decode_entry um es)
  = heap_contents (foldl gob_decode_entry um es').
Proof.
  intros Hperm Hnodup Hwf.
  assert (NoDup es'.*1) as Hnodup' by (by rewrite <- Hperm).
  destruct (gob_decode_entries es um Hwf) as (_ & -> & _).
  destruct (gob_decode_entries es' um Hwf) as (_ & -> & _).
  apply map_eq; intros k. rewrite !lookup_foldl_insert by done.
  by rewrite (list_to_map_proper es es' Hnodup Hperm).
Qed.

Lemma wf_slices_empty : wf_slices ∅ [] None.
Proof. split_and!; intros *; by rewrite ?lookup_empty. Qed.

Lemma wf_spin_init um : wf_slices (Heap um) (arrays um) None → wf (spin_init um).
Proof.
  intros (Hheap & _ & Halias). unfold wf, spin_init. um_simpl.
  split_and!; [done | | done]. intros l. apply Hheap.
Qed.

(** Decoding the encoding of a machine into a new machine. *)
Lemma gob_decode_encode um folder :
  let um' := gob_decode (gob_encode um) (New folder) in
  Gpr um' = Gpr um ∧ heap_contents um' = heap_contents um ∧
  NextHeap um' = NextHeap um ∧ ExFinger um' = ExFinger um ∧
  backupFolder um' = folder ∧
  wf_slices (Heap um') (arrays um') None.
Proof.
  unfold gob_decode.
  set (um0 := set_Gpr (sGpr (gob_encode um)) (New folder)).
  assert (wf_slices (Heap um0) (arrays um0) None) as Hwf0 by apply wf_slices_empty.
  pose proof (heap_contents_round_trip um um0 Hwf0 eq_refl) as Hheap.
  destruct (gob_decode_entries (sHeap (gob_encode um)) um0 Hwf0)
    as (Hwf & _ & HG & HN & HF & HB).
  set (um1 := foldl gob_decode_entry um0 (sHeap (gob_encode um))) in *.
  cbn [gob_encode sNextHeap sExFinger].
  destruct (decide (NextHeap um = 0)) as [HN0 | HN0],
           (decide (ExFinger um = 0%Z)) as [HF0 | HF0];
    cbn [from_option]; unfold heap_contents in *; um_simpl;
    rewrite ?HG, ?HN, ?HF, ?HB, ?Hheap; done.
Qed.

Lemma wrap_int_small x : (- 2 ^ 63 <= x < 2 ^ 63)%Z → wrap_int x = x.
Proof. intros Hx. unfold wrap_int. rewrite Z.mod_small by lia. lia. Qed.

(** The finger the loop has advanced is an [int] above the least one, as
    long as the program it indexes has the length of a slice, an [int]. *)
Lemma advanced_finger s i :
  fetch s = Some i → (Z.of_nat (length (elems (arrays (mach s)) (programHeap s))) < 2 ^ 63)%Z →
  (- 2 ^ 63 < ExFinger (mach s) + 1 < 2 ^ 63)%Z.
Proof.
  unfold fetch, index. case_decide as Hneg; [done |]. intros Hlookup Hlen.
  apply lookup_lt_Some in Hlookup. lia.
Qed.

(** C2. The snapshot the checkpointer writes for a machine, loaded with
    [LoadFromBackup] into a new machine, gives a machine with the same
    registers, the same segments under the same identifiers, the same
    next-identifier counter, and the execution finger decremented as an
    [int] is: one less for every finger that is an [int] above the least
    one.  Such is the finger of every machine the loop hands to the
    checkpointer: it has just been advanced from an index of the program,
    whose length is that of a slice, an [int]; so the restored finger is the
    one at which the Input was fetched.  The slices of the restored machine
    are well formed. *)
Theorem snapshot_round_trip (e : Env) (withTimestampFile : bool)
    (um : UniversalMachine) (folder : string) (d : list FsEvent) (w : Snapshot) :
  disk (doBackup e withTimestampFile um) = disk um ++ d →
  TempFileWritten w ∈ d ∨ (∃ name, ArchiveWritten name w ∈ d) →
  ∃ um', LoadFromBackup (Some w) (New folder) = Some um' ∧
    Gpr um' = Gpr um ∧
    heap_contents um' = heap_contents um ∧
    (∀ k, segment um' k = segment um k) ∧
    NextHeap um' = NextHeap um ∧
    ExFinger um' = wrap_int (ExFinger um - 1) ∧
    ((- 2 ^ 63 < ExFinger um < 2 ^ 63)%Z → ExFinger um' = (ExFinger um - 1)%Z) ∧
    (∀ s i, fetch s = Some i →
       (Z.of_nat (length (elems (arrays (mach s)) (programHeap s))) < 2 ^ 63)%Z →
       um = set_ExFinger (ExFinger (mach s) + 1) (mach s) →
       ExFinger um' = ExFinger (mach s)) ∧
    wf (spin_init um').
Proof.
  intros Hdisk Hin.
  destruct (doBackup_disk e withTimestampFile um) as (d' & Hdo & _ & _ & Hw & _ & Ha).
  rewrite Hdo in Hdisk. um_simpl. apply app_inv_head in Hdisk as <-.
  assert (w = gob_encode um) as ->.
  { destruct Hin as [Hin | [name Hin]]; [by apply Hw | by apply Ha in Hin as [_ ->]]. }
  destruct (gob_decode_encode um folder) as (HG & HH & HN & HF & _ & Hwf).
  eexists. split; [reflexivity |]. um_simpl.
  split_and!; try done.
  - intros k. unfold segment. um_simpl.
    apply (f_equal (λ m, m !! k)) in HH. rewrite !heap_contents_lookup in HH.
    unfold segment in HH.
    destruct (Heap (gob_decode (gob_encode um) (New folder)) !! k),
             (Heap um !! k); by simplify_eq/=.
  - by rewrite HF.
  - intros Hint. rewrite HF. apply wrap_int_small. lia.
  - intros s i Hfetch Hlen ->. rewrite HF. um_simpl.
    pose proof (advanced_finger s i Hfetch Hlen). rewrite wrap_int_small; lia.
  - by apply wf_spin_init.
Qed.

(** The snapshot of the echo machine at its Input instruction. *)
Lemma snapshot_round_trip_witness :
  ∃ um', LoadFromBackup (Some (gob_encode (mach at_input))) (New "") = Some um' ∧
    Gpr um' = Gpr (mach at_input) ∧
    heap_contents um' = heap_contents (mach at_input) ∧
    NextHeap um' = 1 ∧
    ExFinger um' = 0%Z.
Proof.
  destruct (snapshot_round_trip first_env true (mach at_input) ""
              [TempFileWritten (gob_encode (mach at_input));
               ArchiveWritten 0 (gob_encode (mach at_input)); Renamed]
              (gob_encode (mach at_input)))
    as (um' & Hload & HG & HH & _ & HN & _ & HF & _).
  - vm_compute; reflexivity.
  - left. apply list_elem_of_here.
  - exists um'. split; [exact Hload |]. split; [exact HG |]. split; [exact HH |].
    split; [exact HN |]. apply HF. split; reflexivity.
Defined.

(** ** Identifiers *)

Lemma step_select e s i :
  fetch s = Some i →
  spin_step e s =
  spec_dispatch (bits 28 4 i) i (programHeap s) e
    (set_ExFinger (ExFinger (mach s) + 1) (mach s)).
Proof. intros Hfetch. unfold spin_step. by rewrite Hfetch, dispatch_select. Qed.

Lemma wrap32_lt n : wrap32 n < 2 ^ 32.
Proof. apply N.mod_lt. discriminate. Qed.

(** [um.NextHeap++] then [um.NextHeap - 1] gives the counter back. *)
Lemma sub32_succ n : n < 2 ^ 32 → sub32 (wrap32 (n + 1)) 1 = n.
Proof.
  intros Hn. unfold sub32. change (wrap32 1) with 1.
  change (2 ^ 32 - 1) with 4294967295. change (2 ^ 32) with 4294967296 in Hn.
  destruct (decide (n + 1 < 4294967296)) as [Hlt | Hge].
  - rewrite (wrap32_small (n + 1)) by done. unfold wrap32.
    replace (n + 1 + 4294967295) with (n + 1 * 2 ^ 32) by (change (2 ^ 32) with 4294967296; lia).
    rewrite N.Div0.mod_add. by apply N.mod_small.
  - by replace n with 4294967295 by lia.
Qed.

(** What [allocateHeapArray] returns and leaves. *)
Lemma allocateHeapArray_spec len um :
  NextHeap um < 2 ^ 32 →
  (allocateHeapArray len um).1 = NextHeap um ∧
  NextHeap (allocateHeapArray len um).2 = wrap32 (NextHeap um + 1) ∧
  Heap (allocateHeapArray len um).2 !! NextHeap um = Some (length (arrays um)) ∧
  (∀ k, k ≠ NextHeap um →
        Heap (allocateHeapArray len um).2 !! k = Heap um !! k) ∧
  arrays (allocateHeapArray len um).2 = arrays um ++ [replicate (N.to_nat len) 0] ∧
  Gpr (allocateHeapArray len um).2 = Gpr um ∧
  ExFinger (allocateHeapArray len um).2 = ExFinger um.
Proof.
  intros Hn. rewrite allocateHeapArray_eq. um_simpl.
  rewrite sub32_succ, lookup_insert_eq by done.
  split_and!; try done. intros k Hk. by rewrite lookup_insert_ne.
Qed.

Lemma run_trans s ids s' ids' s'' :
  run s ids s' → run s' ids' s'' → run s (ids ++ ids') s''.
Proof.
  induction 1 as [| e s s1 ids s2 Hstep _ IH]; intros Hrun; [done |].
  rewrite <- (assoc_L (++)). eapply run_step; eauto.
Qed.

(** An iteration hands out nothing and leaves the counter, or hands out
    the counter and increments it. *)
Lemma step_counter e s s' :
  NextHeap (mach s) < 2 ^ 32 → spin_step e s = Running s' →
  (handed_out s s' = [] ∧ NextHeap (mach s') = NextHeap (mach s)) ∨
  (handed_out s s' = [NextHeap (mach s)] ∧
   NextHeap (mach s') = wrap32 (NextHeap (mach s) + 1)).
Proof.
  intros Hn. unfold handed_out, spin_step.
  destruct (fetch s) as [i |]; [| done]. rewrite dispatch_select.
  pose proof (backup_frame e (set_ExFinger (ExFinger (mach s) + 1) (mach s)))
    as (_ & _ & HbN & _).
  by_number i; rewrite Hnum; cbn [spec_dispatch]; clear Hnum;
    first [rewrite decide_False by done | rewrite decide_True by done];
    unfold_ops; rewrite ?allocateHeapArray_eq;
    intros Hstep; repeat (case_decide || case_match); simplify_eq; um_simpl;
    rewrite ?HbN; um_simpl; try (by left).
  right. unfold R. um_simpl. by rewrite vlookup_insert, sub32_succ.
Qed.

Lemma wrap32_add_l a b : wrap32 (wrap32 a + b) = wrap32 (a + b).
Proof. apply N.Div0.add_mod_idemp_l. Qed.

(** The identifiers of a run are consecutive from the counter on. *)
Lemma run_counter s ids s' :
  run s ids s' → NextHeap (mach s) < 2 ^ 32 →
  ids = (λ j, wrap32 (NextHeap (mach s) + N.of_nat j)) <$> seq 0 (length ids) ∧
  NextHeap (mach s') = wrap32 (NextHeap (mach s) + N.of_nat (length ids)).
Proof.
  induction 1 as [s | e s s1 ids s2 Hstep _ IH]; intros Hn.
  - cbn [length seq fmap list_fmap N.of_nat]. by rewrite N.add_0_r, wrap32_small.
  - destruct (step_counter e s s1 Hn Hstep) as [[-> HN] | [-> HN]].
    + rewrite HN in IH. cbn [app]. by apply IH.
    + assert (NextHeap (mach s1) < 2 ^ 32) as Hn1 by (rewrite HN; apply wrap32_lt).
      destruct (IH Hn1) as [Hids HN'].
      rewrite HN in Hids, HN'. cbn [app length seq fmap list_fmap N.of_nat].
      rewrite N.add_0_r, (wrap32_small (NextHeap (mach s))) by done.
      rewrite <- fmap_S_seq, <- list_fmap_compose.
      split.
      * f_equal. rewrite Hids at 1. apply list_fmap_ext. intros _ j _. cbn.
        rewrite wrap32_add_l. f_equal. lia.
      * rewrite HN', wrap32_add_l. f_equal. lia.
Qed.

Lemma LoadProgram_New_counter folder p um :
  LoadProgram p (New folder) = (um, None) →
  NextHeap um = 1 ∧ Heap um !! 0 = Some 0%nat ∧ dom (Heap um) = {[0]}.
Proof.
  unfold LoadProgram. destruct (read_error p); [done |].
  destruct (binary_Read _ _) as [program |]; [| done].
  rewrite allocateHeapArray_eq. unfold New. um_simpl.
  change (sub32 (wrap32 (0 + 1)) 1) with 0. rewrite lookup_insert_eq.
  intros [= <-]. um_simpl. rewrite lookup_insert_eq.
  by rewrite insert_empty, dom_singleton_L.
Qed.

(** C10. [allocateHeapArray] returns the value of the next-identifier
    counter and adds one to it modulo 2^32; an iteration of the loop either
    hands out no identifier and leaves the counter, or hands out the counter
    and increments it; Abandonment is of the first kind.  So the identifiers
    handed out along a run are consecutive modulo 2^32 from the counter on,
    whatever was abandoned on the way, and for a machine that was created and
    loaded with [LoadProgram] they are 0 for the program, then 1, 2, ... *)
Theorem identifiers_consecutive :
  (∀ len um, NextHeap um < 2 ^ 32 →
     (allocateHeapArray len um).1 = NextHeap um ∧
     NextHeap (allocateHeapArray len um).2 = wrap32 (NextHeap um + 1)) ∧
  (∀ e s s', NextHeap (mach s) < 2 ^ 32 → spin_step e s = Running s' →
     (handed_out s s' = [] ∧ NextHeap (mach s') = NextHeap (mach s)) ∨
     (handed_out s s' = [NextHeap (mach s)] ∧
      NextHeap (mach s') = wrap32 (NextHeap (mach s) + 1))) ∧
  (∀ e s s' i, fetch s = Some i → bits 28 4 i = 9 → spin_step e s = Running s' →
     handed_out s s' = [] ∧ NextHeap (mach s') = NextHeap (mach s)) ∧
  (∀ s ids s', NextHeap (mach s) < 2 ^ 32 → run s ids s' →
     ids = (λ j, wrap32 (NextHeap (mach s) + N.of_nat j)) <$> seq 0 (length ids)) ∧
  (∀ folder p um ids s',
     LoadProgram p (New folder) = (um, None) → run (spin_init um) ids s' →
     Heap um !! 0 = Some 0%nat ∧ dom (Heap um) = {[0]} ∧ NextHeap um = 1 ∧
     0 :: ids = (λ j, wrap32 (N.of_nat j)) <$> seq 0 (S (length ids))).
Proof.
  split_and!.
  - intros len um Hn. by destruct (allocateHeapArray_spec len um Hn) as (? & ? & _).
  - apply step_counter.
  - intros e s s' i Hfetch Hnum Hstep. unfold handed_out.
    rewrite Hfetch, Hnum, decide_False by done. split; [done |].
    rewrite (step_select e s i Hfetch), Hnum in Hstep. cbn [spec_dispatch] in Hstep.
    unfold op_abandonment, continue in Hstep. by simplify_eq.
  - intros s ids s' Hn Hrun. by apply (run_counter s ids s').
  - intros folder p um ids s' Hload Hrun.
    destruct (LoadProgram_New_counter folder p um Hload) as (HN & H0 & Hdom).
    split_and!; try done.
    assert (NextHeap (mach (spin_init um)) < 2 ^ 32) as Hn
      by (cbn [mach spin_init]; by rewrite HN).
    destruct (run_counter _ _ _ Hrun Hn) as [Hids _].
    cbn [mach spin_init] in Hids. rewrite HN in Hids.
    cbn [seq fmap list_fmap N.of_nat]. f_equal.
    rewrite <- fmap_S_seq, <- list_fmap_compose. rewrite Hids at 1.
    apply list_fmap_ext. intros _ j _. cbn. f_equal. lia.
Qed.

(** ** Allocation *)

Lemma allocation_step e s i :
  fetch s = Some i → bits 28 4 i = 8 →
  spin_step e s =
  op_allocation i (programHeap s) (set_ExFinger (ExFinger (mach s) + 1) (mach s)).
Proof. intros Hfetch Hnum. by rewrite (step_select e s i Hfetch), Hnum. Qed.

(** As long as the counter is not zero and names no live segment, the
    identifier of an Allocation is not zero either and names no segment that
    was live; the new segment has as many platters as register C says, all
    of them zero. *)
Lemma allocation_fresh e s i :
  fetch s = Some i → bits 28 4 i = 8 → NextHeap (mach s) < 2 ^ 32 →
  ∃ s', spin_step e s = Running s' ∧
    R (mach s') (regB i) = NextHeap (mach s) ∧
    segment (mach s') (R (mach s') (regB i))
      = replicate (N.to_nat (R (mach s) (regC i))) 0 ∧
    (NextHeap (mach s) ≠ 0 → Heap (mach s) !! NextHeap (mach s) = None →
       R (mach s') (regB i) ≠ 0 ∧ Heap (mach s) !! R (mach s') (regB i) = None).
Proof.
  intros Hfetch Hnum Hn. rewrite (allocation_step e s i Hfetch Hnum).
  unfold op_allocation. rewrite allocateHeapArray_eq. unfold continue.
  eexists. split; [reflexivity |]. unfold R, segment. um_simpl.
  rewrite vlookup_insert, sub32_succ, lookup_insert_eq, elems_app_new by done.
  done.
Qed.

Lemma loop_state_0 : spin_init loop_machine = loop_state 0.
Proof. vm_compute. reflexivity. Qed.

Ltac um_unfold H :=
  unfold setR, set_Gpr, set_Heap, set_NextHeap, set_ExFinger, set_consoleOut,
    set_lastBackup, set_arrays, set_disk in H;
  cbn [Gpr Heap NextHeap ExFinger consoleOut backupFolder lastBackup arrays disk
       mach programHeap] in H.

(** The Allocation at the head of the loop puts the counter in register 1. *)
Lemma loop_allocation n :
  spin_step quiet_env (loop_state n) =
  Running
    {| mach :=
         {| Gpr := vinsert 1%fin (wrap32 (1 + n)) (vreplicate 8 0);
            Heap := <[wrap32 (1 + n) := S (length (replicate (N.to_nat n) ([] : list N)))]>
                      {[0 := 0%nat]};
            NextHeap := wrap32 (wrap32 (1 + n) + 1);
            ExFinger := 0 + 1;
            consoleOut := [];
            backupFolder := "";
            lastBackup := zeroTime;
            arrays := (loop_program :: replicate (N.to_nat n) []) ++ [[]];
            disk := [] |};
       programHeap := Some 0%nat |}.
Proof.
  assert (fetch (loop_state n) = Some 0x80000008) as Hfetch by reflexivity.
  pose proof (allocation_step quiet_env _ _ Hfetch eq_refl) as Hstep.
  set (o := spin_step quiet_env (loop_state n)) in *.
  unfold op_allocation in Hstep. rewrite allocateHeapArray_eq in Hstep.
  unfold continue, R, loop_state in Hstep. um_unfold Hstep.
  change (regB 0x80000008) with (1%fin : fin 8) in Hstep.
  change (regC 0x80000008) with (0%fin : fin 8) in Hstep.
  rewrite vlookup_insert_ne, vlookup_replicate in Hstep by done.
  rewrite sub32_succ, vinsert_overwrite in Hstep by apply wrap32_lt.
  exact Hstep.
Qed.

(** One turn of the loop, while the counter does not wrap. *)
Lemma loop_turn n :
  1 + n < 2 ^ 32 → ∃ ids, run (loop_state n) ids (loop_state (n + 1)).
Proof.
  intros Hn.
  assert (wrap32 (1 + n) = 1 + n) as Hw by by apply wrap32_small.
  assert (1 + n ≠ 0) as Hnz by lia.
  pose proof (loop_allocation n) as Hs1. rewrite Hw in Hs1.
  match type of Hs1 with _ = Running ?s => set (s1 := s) in * end.
  (* Abandonment *)
  assert (fetch s1 = Some 0x90000001) as Hf2 by reflexivity.
  pose proof (step_select quiet_env _ _ Hf2) as Hs2.
  change (bits 28 4 0x90000001) with 9 in Hs2. cbn [spec_dispatch] in Hs2.
  set (o2 := spin_step quiet_env s1) in Hs2.
  unfold op_abandonment, continue, R, s1 in Hs2. um_unfold Hs2.
  change (regC 0x90000001) with (1%fin : fin 8) in Hs2.
  rewrite vlookup_insert, delete_insert_eq, delete_singleton_ne in Hs2 by done.
  match type of Hs2 with _ = Running ?s => set (s2 := s) in * end.
  (* Load Program with zero in register B *)
  assert (fetch s2 = Some 0xC0000000) as Hf3 by reflexivity.
  pose proof (step_select quiet_env _ _ Hf3) as Hs3.
  change (bits 28 4 0xC0000000) with 12 in Hs3. cbn [spec_dispatch] in Hs3.
  set (o3 := spin_step quiet_env s2) in Hs3.
  unfold op_load_program, continue, R, s2 in Hs3. um_unfold Hs3.
  change (regB 0xC0000000) with (0%fin : fin 8) in Hs3.
  change (regC 0xC0000000) with (0%fin : fin 8) in Hs3.
  rewrite vlookup_insert_ne, vlookup_replicate in Hs3 by done.
  rewrite decide_False in Hs3 by (by intros ?). um_unfold Hs3.
  rewrite vlookup_insert_ne, vlookup_replicate in Hs3 by done.
  (* the state after the turn *)
  assert (loop_state (n + 1) =
          {| mach :=
               {| Gpr := vinsert 1%fin (1 + n) (vreplicate 8 0);
                  Heap := {[0 := 0%nat]};
                  NextHeap := wrap32 (1 + n + 1);
                  ExFinger := Z.of_N 0;
                  consoleOut := [];
                  backupFolder := "";
                  lastBackup := zeroTime;
                  arrays := (loop_program :: replicate (N.to_nat n) []) ++ [[]];
                  disk := [] |};
             programHeap := Some 0%nat |}) as ->.
  { unfold loop_state.
    replace (wrap32 (n + 1)) with (1 + n) by (by rewrite (N.add_comm n 1), Hw).
    replace (1 + (n + 1)) with (1 + n + 1) by lia.
    replace (N.to_nat (n + 1)) with (S (N.to_nat n)) by lia.
    by rewrite replicate_S_end. }
  subst o2 o3. eexists.
  eapply run_step; [exact Hs1 |]. eapply run_step; [exact Hs2 |].
  eapply run_step; [exact Hs3 |]. constructor.
Qed.

(** Every turn of the loop up to the last one before the counter is zero
    again is reached from the loaded machine. *)
Lemma loop_reaches n :
  n < 2 ^ 32 → ∃ ids, run (spin_init loop_machine) ids (loop_state n).
Proof.
  rewrite loop_state_0.
  induction n as [| n IH] using N.peano_ind; intros Hn.
  - eexists. constructor.
  - destruct IH as [ids Hids]; [lia |].
    destruct (loop_turn n) as [ids' Hids']; [lia |].
    rewrite <- N.add_1_r. eauto using run_trans.
Qed.

(** C3, the code at a state it reaches.  The loop machine is loaded with
    [LoadProgram] and allocates and abandons one segment per turn; after
    2^32 - 1 turns the counter is zero again.  The next Allocation places the
    identifier 0 in register B, while the program is live under that
    identifier, and the entry of the program in the heap is overwritten. *)
Theorem allocation_reuses_zero :
  ∃ ids s,
    run (spin_init loop_machine) ids s ∧
    fetch s = Some 0x80000008 ∧ bits 28 4 0x80000008 = 8 ∧
    Heap (mach s) !! 0 = Some 0%nat ∧
    ∃ s', spin_step quiet_env s = Running s' ∧
      R (mach s') (regB 0x80000008) = 0 ∧
      Heap (mach s') !! 0 ≠ Heap (mach s) !! 0.
Proof.
  destruct (loop_reaches 4294967295) as [ids Hrun]; [done |].
  exists ids, (loop_state 4294967295). split; [exact Hrun |].
  split; [reflexivity |]. split; [reflexivity |].
  split; [apply lookup_singleton_eq |].
  eexists. split; [apply loop_allocation |].
  unfold R. cbn [mach Gpr Heap loop_state].
  change (regB 0x80000008) with (1%fin : fin 8).
  change (wrap32 (1 + 4294967295)) with 0.
  rewrite vlookup_insert, !lookup_insert_eq. split; [done |].
  intros [= Hlen]. 
Qed.


(** ** Restoring at the Input instruction *)

Lemma backup_disk e um :
  ∃ d, disk (backup e um) = disk um ++ d ∧
       ∀ w, TempFileWritten w ∈ d → w = gob_encode um.
Proof.
  unfold backup. case_decide; [case_match |].
  - destruct (doBackup_disk e (15 * Minute <? Since (clock_archive e) (lastBackup um))%Z um)
      as (d & -> & _ & _ & Hw & _).
    exists d. by um_simpl.
  - exists []. rewrite app_nil_r. split; [done |]. intros w Hw. by apply elem_of_nil in Hw.
  - exists []. rewrite app_nil_r. split; [done |]. intros w Hw. by apply elem_of_nil in Hw.
Qed.

(** The snapshot an Input instruction writes is taken after the finger has
    moved past the instruction; [LoadFromBackup] moves it back, so the
    restored machine has the registers, the segments, the counter and the
    finger the machine had when it fetched the Input instruction.  The
    snapshot is one the iteration adds to the disk, also when an equal one
    is there from an earlier checkpoint. *)
Lemma restore_rewinds_to_input e s i d w folder :
  fetch s = Some i → bits 28 4 i = 11 →
  ∀ um', final (spin_step e s) = Some um' →
    disk um' = disk (mach s) ++ d → TempFileWritten w ∈ d →
    ∃ r, LoadFromBackup (Some w) (New folder) = Some r ∧
      Gpr r = Gpr (mach s) ∧ heap_contents r = heap_contents (mach s) ∧
      NextHeap r = NextHeap (mach s) ∧
      ((Z.of_nat (length (elems (arrays (mach s)) (programHeap s))) < 2 ^ 63)%Z →
       ExFinger r = ExFinger (mach s)).
Proof.
  intros Hfetch Hnum um' Hfinal Hdisk Hin.
  rewrite (input_step e s i Hfetch Hnum) in Hfinal.
  set (um1 := set_ExFinger (ExFinger (mach s) + 1) (mach s)) in *.
  destruct (backup_disk e um1) as (d' & Hd & Hw).
  assert (disk um' = disk (mach s) ++ d') as Hdisk'.
  { unfold op_input, continue in Hfinal.
    repeat (case_decide || case_match); um_simpl; try discriminate;
      injection Hfinal as <-; um_simpl; exact Hd. }
  rewrite Hdisk' in Hdisk. apply app_inv_head in Hdisk as ->.
  apply Hw in Hin as ->.
  destruct (gob_decode_encode um1 folder) as (HG & HH & HN & HF & _).
  eexists. split; [reflexivity |]. unfold heap_contents in *. um_simpl.
  rewrite HG, HH, HN, HF. subst um1. um_simpl.
  split_and!; try done. intros Hlen.
  pose proof (advanced_finger s i Hfetch Hlen). rewrite wrap_int_small; lia.
Qed.

(** * The machine as a whole *)

(** ** Platters are 32-bit values *)

Lemma be32_lt b0 b1 b2 b3 : be32 b0 b1 b2 b3 < 2 ^ 32.
Proof.
  rewrite be32_sum.
  pose proof (Byte.to_N_bounded b0). pose proof (Byte.to_N_bounded b1).
  pose proof (Byte.to_N_bounded b2). pose proof (Byte.to_N_bounded b3).
  change (2 ^ 32) with 4294967296. change (2 ^ 24) with 16777216.
  change (2 ^ 16) with 65536. change (2 ^ 8) with 256. lia.
Qed.

Lemma platters_lt data : Forall (λ x, x < 2 ^ 32) (platters data).
Proof.
  assert (∀ n data, (length data ≤ n)%nat → Forall (λ x, x < 2 ^ 32) (platters data))
    as Hall; [| by apply (Hall (length data))].
  clear data. induction n as [| n IH]; intros data Hlen.
  - destruct data; [constructor | cbn [length] in Hlen; lia].
  - destruct data as [| b0 [| b1 [| b2 [| b3 rest]]]]; try constructor.
    + apply be32_lt.
    + apply IH. cbn [length] in Hlen. lia.
Qed.

Lemma copy_lt dst src :
  Forall (λ x, x < 2 ^ 32) dst → Forall (λ x, x < 2 ^ 32) src →
  Forall (λ x, x < 2 ^ 32) (copy dst src).
Proof.
  intros Hd Hs. unfold copy. apply Forall_app.
  split; [by apply Forall_take | by apply Forall_drop].
Qed.

Lemma make_lt len : Forall (λ x, x < 2 ^ 32) (make len).
Proof. apply Forall_replicate. done. Qed.

Lemma elems_lt a sl :
  Forall (Forall (λ x, x < 2 ^ 32)) a → Forall (λ x, x < 2 ^ 32) (elems a sl).
Proof.
  intros Ha. destruct sl as [l |]; [| constructor]. cbn [elems].
  destruct (a !! l) as [x |] eqn:Hl; [| constructor].
  by apply (Forall_lookup_1 _ _ _ _ Ha Hl).
Qed.

Lemma store_lt a sl j v a' :
  store a sl j v = Some a' → v < 2 ^ 32 →
  Forall (Forall (λ x, x < 2 ^ 32)) a → Forall (Forall (λ x, x < 2 ^ 32)) a'.
Proof.
  intros Hstore Hv Ha. destruct sl as [l |]; [| done]. cbn [store] in Hstore.
  destruct (a !! l) as [x |] eqn:Hl; [| done]. case_decide; [| done]. simplify_eq.
  apply Forall_insert; [done |]. apply Forall_insert; [| done].
  by apply (Forall_lookup_1 _ _ _ _ Ha Hl).
Qed.

Lemma in_range_setR r v um : v < 2 ^ 32 → in_range um → in_range (setR r v um).
Proof.
  intros Hv (HR & HN & HA). split_and!; [| done..].
  intros r'. destruct (decide (r = r')) as [-> | Hne].
  - by rewrite setR_same.
  - by rewrite setR_other.
Qed.

Lemma in_range_backup e um : in_range um → in_range (backup e um).
Proof.
  intros (HR & HN & HA). pose proof (backup_frame e um) as (HG & _ & HN' & _ & HA' & _).
  unfold in_range, R. by rewrite HG, HN', HA'.
Qed.

Lemma in_range_ExFinger f um : in_range um → in_range (set_ExFinger f um).
Proof. done. Qed.

Lemma in_range_dispatch i ph e um um' :
  in_range um → final (dispatch i ph e um) = Some um' → in_range um'.
Proof.
  intros Hin. rewrite dispatch_select.
  pose proof Hin as (HR & HN & HA).
  assert (immediate i < 2 ^ 32) as Himm.
  { rewrite immediate_bits. pose proof (bits_lt 0 25 i).
    change (2 ^ 25) with 33554432 in *. change (2 ^ 32) with 4294967296. lia. }
  by_number i; rewrite Hnum; cbn [spec_dispatch]; clear Hnum; intros H.
  - unfold op_conditional_move, continue in H. case_decide; simplify_eq/=; [| done].
    by apply in_range_setR.
  - unfold op_array_index, continue in H. case_match eqn:Hidx; simplify_eq/=.
    apply in_range_setR; [| done]. unfold index in Hidx.
    by apply (Forall_lookup_1 _ _ _ _ (elems_lt _ _ HA) Hidx).
  - unfold op_array_amendment, continue in H. case_match eqn:Hst; simplify_eq/=.
    split_and!; [done | done |]. um_simpl. eapply store_lt; eauto.
  - unfold op_addition, continue in H. simplify_eq/=.
    apply in_range_setR; [apply wrap32_lt | done].
  - unfold op_multiplication, continue in H. simplify_eq/=.
    apply in_range_setR; [apply wrap32_lt | done].
  - unfold op_division, continue in H. case_decide; simplify_eq/=.
    apply in_range_setR; [| done].
    eapply N.le_lt_trans; [apply N.Div0.div_le_upper_bound | apply (HR (regB i))].
    pose proof (HR (regB i)). nia.
  - unfold op_not_and, continue in H. simplify_eq/=.
    apply in_range_setR; [apply wrap32_lt | done].
  - unfold op_halt in H. by simplify_eq/=.
  - unfold op_allocation, continue in H. rewrite allocateHeapArray_eq in H. simplify_eq/=.
    apply in_range_setR; [apply wrap32_lt |].
    split_and!; [done | apply wrap32_lt |]. um_simpl.
    apply Forall_app. split; [done |]. constructor; [apply make_lt | constructor].
  - unfold op_abandonment, continue in H. by simplify_eq/=.
  - unfold op_output, continue in H. by simplify_eq/=.
  - unfold op_input, continue in H.
    pose proof (in_range_backup e um Hin) as Hb.
    pose proof (Byte.to_N_bounded (ip0 (consoleIn e))) as Hbyte.
    assert (Byte.to_N (ip0 (consoleIn e)) < 2 ^ 32) as Hbyte'
      by (change (2 ^ 32) with 4294967296; lia).
    repeat (case_decide || case_match); simplify_eq/=;
      repeat (apply in_range_setR; [done |]); done.
  - unfold op_load_program, continue in H. rewrite copy_whole in H.
    case_decide; simplify_eq/=; [| done].
    split_and!; [done | done |]. um_simpl.
    apply Forall_app. split; [done |]. constructor; [| constructor].
    by apply elems_lt.
  - unfold op_orthography, continue in H. simplify_eq/=. by apply in_range_setR.
  - unfold continue in H. by simplify_eq/=.
  - unfold continue in H. by simplify_eq/=.
Qed.

Lemma in_range_New folder : in_range (New folder).
Proof.
  split_and!; [| done | constructor].
  intros r. unfold R, New. cbn [Gpr]. by rewrite vlookup_replicate.
Qed.

Lemma in_range_LoadProgram p um um' err :
  in_range um → LoadProgram p um = (um', err) → in_range um'.
Proof.
  intros Hin. pose proof Hin as (HR & HN & HA). unfold LoadProgram.
  destruct (read_error p); [by intros [= <- _] |].
  destruct (binary_Read _ _) as [program |] eqn:Hread; [| by intros [= <- _]].
  assert (Forall (λ x, x < 2 ^ 32) program) as Hprogram.
  { unfold binary_Read in Hread. case_decide; simplify_eq.
    apply Forall_take, platters_lt. }
  rewrite allocateHeapArray_eq.
  set (um1 := set_NextHeap _ _).
  assert (in_range um1) as (HR1 & HN1 & HA1).
  { split_and!; [done | apply wrap32_lt |]. subst um1. um_simpl.
    apply Forall_app. split; [done |]. constructor; [apply make_lt | constructor]. }
  destruct (Heap um1 !! _) as [l |]; intros [= <- _]; [| done].
  split_and!; [done | done |]. um_simpl.
  apply Forall_insert; [done |].
  apply copy_lt; [by apply (elems_lt (arrays um1) (Some l)) | done].
Qed.

Lemma in_range_gob_decode um dst :
  in_range um → in_range dst → in_range (gob_decode (gob_encode um) dst).
Proof.
  intros (HR & HN & HA) (HRd & HNd & HAd). unfold gob_decode.
  set (d0 := set_Gpr (sGpr (gob_encode um)) dst).
  assert (∀ es d, Forall (λ kv, Forall (λ x, x < 2 ^ 32) kv.2) es →
            Forall (Forall (λ x, x < 2 ^ 32)) (arrays d) →
            Forall (Forall (λ x, x < 2 ^ 32)) (arrays (foldl gob_decode_entry d es)) ∧
            Gpr (foldl gob_decode_entry d es) = Gpr d ∧
            NextHeap (foldl gob_decode_entry d es) = NextHeap d) as Hfold.
  { induction es as [| kv es IH]; intros d Hes Hd; [done |].
    apply Forall_cons in Hes as [Hkv Hes]. cbn [foldl].
    destruct (IH (gob_decode_entry d kv) Hes) as (? & -> & ->); [| done].
    unfold gob_decode_entry. um_simpl. apply Forall_app. split; [done |].
    by constructor. }
  destruct (Hfold (sHeap (gob_encode um)) d0) as (HA1 & HG1 & HN1); [| done |].
  { cbn [gob_encode sHeap]. apply Forall_fmap, Forall_forall. intros kl _.
    cbn [snd]. by apply (elems_lt (arrays um) (Some kl.2)). }
  set (d1 := foldl gob_decode_entry d0 (sHeap (gob_encode um))) in *.
  cbn [gob_encode sNextHeap sExFinger].
  unfold in_range, R.
  repeat case_decide; cbn [from_option]; um_simpl; rewrite ?HG1, ?HN1;
    subst d0; um_simpl; split_and!; try done; apply HR.
Qed.

(** X1.  Every platter stays a 32-bit value.  The registers, the counter
    and the elements of every array are below 2^32 in a new machine, and
    they stay so through [LoadProgram], through every iteration of the loop
    that does not panic, and through [LoadFromBackup] of the snapshot of a
    machine of which this holds. *)
Theorem platters_stay_32_bit :
  (∀ folder, in_range (New folder)) ∧
  (∀ p um um' err, in_range um → LoadProgram p um = (um', err) → in_range um') ∧
  (∀ e s um', in_range (mach s) → final (spin_step e s) = Some um' → in_range um') ∧
  (∀ um dst r, in_range um → in_range dst →
     LoadFromBackup (Some (gob_encode um)) dst = Some r → in_range r).
Proof.
  split_and!.
  - apply in_range_New.
  - apply in_range_LoadProgram.
  - intros e s um' Hin. unfold spin_step.
    destruct (fetch s) as [i |]; [| done]. by apply in_range_dispatch.
  - intros um dst r Hum Hdst [= <-].
    by apply (in_range_ExFinger _ _ (in_range_gob_decode um dst Hum Hdst)).
Qed.

(** ** When an iteration stops the machine *)

Lemma fetch_program s :
  fetch s = if decide (ExFinger (mach s) < 0)%Z then None
            else program s !! Z.to_nat (ExFinger (mach s)).
Proof. reflexivity. Qed.

Lemma fetch_None s :
  fetch s = None ↔
  (ExFinger (mach s) < 0 ∨ Z.of_nat (length (program s)) <= ExFinger (mach s))%Z.
Proof.
  rewrite fetch_program. case_decide as Hneg.
  - naive_solver.
  - rewrite lookup_ge_None. split; [lia |]. intros [? | ?]; lia.
Qed.

Lemma store_None a sl j v :
  store a sl j v = None ↔ (length (elems a sl) ≤ j)%nat.
Proof.
  destruct sl as [l |]; cbn [store elems];
    [| split; [cbn [length]; lia | done]].
  destruct (a !! l) as [x |]; cbn [default from_option id].
  - case_decide; split; (done || lia).
  - cbn [length]. split; [lia | done].
Qed.

(** X2.  An iteration panics exactly when the finger is outside the program
    the loop executes, when an Array Index or an Array Amendment names an
    offset outside the segment (a segment that is not there has no offsets),
    or when a Division has zero in register C.  Memory is not bounded here:
    an Allocation always succeeds. *)
Theorem step_panics_iff (e : Env) (s : SpinState) :
  spin_step e s = Panic ↔
  (ExFinger (mach s) < 0 ∨ Z.of_nat (length (program s)) <= ExFinger (mach s))%Z ∨
  ∃ i, fetch s = Some i ∧
    let um := mach s in
    (bits 28 4 i = 1 ∧
       (length (segment um (R um (regB i))) ≤ N.to_nat (R um (regC i)))%nat) ∨
    (bits 28 4 i = 2 ∧
       (length (segment um (R um (regA i))) ≤ N.to_nat (R um (regB i)))%nat) ∨
    (bits 28 4 i = 5 ∧ R um (regC i) = 0).
Proof.
  rewrite <- fetch_None. cbv zeta.
  destruct (fetch s) as [i |] eqn:Hfetch.
  2: { unfold spin_step. rewrite Hfetch. naive_solver. }
  rewrite (step_select e s i Hfetch).
  set (um1 := set_ExFinger (ExFinger (mach s) + 1) (mach s)).
  assert (∀ r, R um1 r = R (mach s) r) as HR by done.
  assert (∀ k, segment um1 k = segment (mach s) k) as Hseg by done.
  split.
  - intros Hpanic. right. exists i. split; [done |]. revert Hpanic.
    by_number i; rewrite Hnum; cbn [spec_dispatch]; clear Hnum; unfold_ops;
      rewrite ?allocateHeapArray_eq; intros Hpanic;
      repeat (case_decide || case_match); try discriminate.
    + left. split; [done |]. by apply lookup_ge_None.
    + right. left. split; [done |]. by apply store_None in H.
    + right. right. done.
  - intros [? | (i' & [= <-] & Hcases)]; [done |].
    destruct Hcases as [[-> Hlen] | [[-> Hlen] | [-> Hzero]]]; cbn [spec_dispatch];
      unfold_ops.
    + apply lookup_ge_None in Hlen. unfold index. fold (segment um1 (R um1 (regB i))).
      by rewrite Hseg, !HR, Hlen.
    + by pose proof (proj2 (store_None (arrays um1) (Heap um1 !! R um1 (regA i))
                         (N.to_nat (R um1 (regB i))) (R um1 (regC i))) Hlen) as ->.
    + by rewrite decide_True.
Qed.

(** X3.  An iteration stops the machine exactly at a Halt, with no error,
    and at an Input whose read fails with an error that is not the end of
    the input, with that error; the machine it leaves has the finger behind
    the instruction, and at the Input the checkpoint taken and the byte
    stored that the failing read delivered, if any. *)
Theorem step_halts_iff (e : Env) (s : SpinState) (um : UniversalMachine)
    (result : option string) :
  spin_step e s = Halted um result ↔
  ∃ i, fetch s = Some i ∧
    let um1 := set_ExFinger (ExFinger (mach s) + 1) (mach s) in
    (bits 28 4 i = 7 ∧ result = None ∧ um = um1) ∨
    (bits 28 4 i = 11 ∧
     ∃ msg, err (consoleIn e) = Some (OtherError msg) ∧
       result = Some ("error reading from stdin: " +:+ msg) ∧
       um = if decide (count (consoleIn e) = 1%Z)
            then setR (regC i) (Byte.to_N (ip0 (consoleIn e))) (backup e um1)
            else backup e um1).
Proof.
  cbv zeta. destruct (fetch s) as [i |] eqn:Hfetch.
  2: { unfold spin_step. rewrite Hfetch. naive_solver. }
  rewrite (step_select e s i Hfetch).
  set (um1 := set_ExFinger (ExFinger (mach s) + 1) (mach s)).
  split.
  - intros Hhalt. exists i. split; [done |].
    by_number i; rewrite Hnum in Hhalt |- *; cbn [spec_dispatch] in Hhalt;
      clear Hnum; unfold_ops; rewrite ?allocateHeapArray_eq in Hhalt;
      repeat match type of Hhalt with
             | context [match ?x with _ => _ end] => destruct x eqn:?
             end; try discriminate.
    + left. by injection Hhalt as <- <-.
    + right. split; [done |]. injection Hhalt as <- <-. eauto.
    + right. split; [done |]. injection Hhalt as <- <-. eauto.
  - intros (i' & [= <-] & [(-> & -> & ->) | (-> & msg & Hmsg & -> & ->)]);
      cbn [spec_dispatch]; unfold_ops; [done |].
    by rewrite Hmsg.
Qed.

(** ** The operators on registers *)

Lemma not32_spec x :
  not32 x < 2 ^ 32 ∧ ∀ n, n < 32 → N.testbit (not32 x) n = negb (N.testbit x n).
Proof.
  unfold not32. split; [apply wrap32_lt |]. intros n Hn.
  unfold wrap32. change (2 ^ 32) with (2 ^ 32). rewrite N.mod_pow2_bits_low by done.
  by apply N.lnot_spec_low.
Qed.

(** X4.  What the operators 0 and 3 to 6 leave in register A, in terms of
    the values of the registers B and C before: B unless C is zero; the sum
    and the product modulo 2^32; the quotient, rounded down; and the
    complement of the bitwise and, as a 32-bit value. *)
Theorem arithmetic_operators (e : Env) (s s' : SpinState) (i : platter) :
  fetch s = Some i → spin_step e s = Running s' →
  let a := R (mach s') (regA i) in
  let b := R (mach s) (regB i) in
  let c := R (mach s) (regC i) in
  (bits 28 4 i = 0 → a = if decide (c = 0) then R (mach s) (regA i) else b) ∧
  (bits 28 4 i = 3 → a = (b + c) mod 2 ^ 32) ∧
  (bits 28 4 i = 4 → a = (b * c) mod 2 ^ 32) ∧
  (bits 28 4 i = 5 → c ≠ 0 ∧ a * c <= b < (a + 1) * c) ∧
  (bits 28 4 i = 6 →
     a < 2 ^ 32 ∧
     ∀ n, n < 32 → N.testbit a n = negb (N.testbit b n && N.testbit c n)).
Proof.
  intros Hfetch. rewrite (step_select e s i Hfetch). cbv zeta.
  set (um1 := set_ExFinger (ExFinger (mach s) + 1) (mach s)).
  assert (∀ r, R um1 r = R (mach s) r) as HR by done.
  intros Hstep.
  split_and!; intros Hnum; rewrite Hnum in Hstep; cbn [spec_dispatch] in Hstep;
    unfold_ops; repeat case_decide; simplify_eq; um_simpl;
    rewrite ?setR_same, ?HR; try done.
  - split; [done |].
    pose proof (N.Div0.mul_div_le (R (mach s) (regB i)) (R (mach s) (regC i))) as Hle.
    pose proof (N.mul_succ_div_gt (R (mach s) (regB i)) (R (mach s) (regC i))) as Hgt.
    rewrite <- N.add_1_r in Hgt.
    rewrite !(N.mul_comm _ (R (mach s) (regC i))). auto.
  - destruct (not32_spec (N.land (R (mach s) (regB i)) (R (mach s) (regC i))))
      as [Hlt Hbits].
    split; [done |]. intros n Hn. by rewrite Hbits, N.land_spec.
Qed.

(** ** The segments after an iteration *)

Lemma segment_heap_contents um k : segment um k = default [] (heap_contents um !! k).
Proof. rewrite heap_contents_lookup. unfold segment. by destruct (Heap um !! k). Qed.

Lemma heap_contents_same um um' :
  Heap um' = Heap um → arrays um' = arrays um → heap_contents um' = heap_contents um.
Proof. unfold heap_contents. by intros -> ->. Qed.

Lemma heap_contents_new um um' k x :
  (∀ k l, Heap um !! k = Some l → (l < length (arrays um))%nat) →
  Heap um' = <[k := length (arrays um)]> (Heap um) →
  arrays um' = arrays um ++ [x] →
  heap_contents um' = <[k := x]> (heap_contents um).
Proof.
  intros Hheap HH Ha. unfold heap_contents. rewrite HH, Ha.
  rewrite fmap_insert, elems_app_new. f_equal.
  apply map_fmap_ext. intros k' l Hl. apply elems_app_l.
  intros ? [= <-]. by apply (Hheap k').
Qed.

Lemma heap_contents_store um um' k j v :
  (∀ k1 k2 l, Heap um !! k1 = Some l → Heap um !! k2 = Some l → k1 = k2) →
  Heap um' = Heap um →
  store (arrays um) (Heap um !! k) j v = Some (arrays um') →
  heap_contents um' = <[k := <[j := v]> (segment um k)]> (heap_contents um).
Proof.
  intros Halias HH Hstore. unfold heap_contents, segment. rewrite HH.
  destruct (Heap um !! k) as [l |] eqn:Hl; [| done].
  apply map_eq. intros k'. rewrite lookup_fmap.
  destruct (decide (k' = k)) as [-> | Hne].
  - rewrite lookup_insert_eq, Hl. cbn [fmap option_fmap option_map].
    cbn [store] in Hstore. cbn [elems].
    destruct (arrays um !! l) as [x |] eqn:Hx; [| done]. case_decide; [| done].
    injection Hstore as <-. cbn [default from_option id].
    rewrite list_lookup_insert_eq; [done |]. by eapply lookup_lt_Some.
  - rewrite lookup_insert_ne, lookup_fmap by done.
    destruct (Heap um !! k') as [l' |] eqn:Hl'; [| done].
    cbn [fmap option_fmap option_map]. f_equal.
    apply (store_other _ _ _ _ _ (Some l') Hstore). intros [= ->]. eauto.
Qed.

(** X5.  What an iteration does to the segments.  An Array Amendment changes
    one platter of one segment; an Allocation adds a segment of zeros under
    the value of the counter, as long as register C says, in place of what
    that identifier named; an Abandonment removes the segment register C
    names, if there is one; a Load Program with a non-zero register B puts a
    copy of the segment B names under the identifier 0; every other
    instruction leaves every segment as it is. *)
Theorem heap_effect (e : Env) (s s' : SpinState) (i : platter) :
  wf s → fetch s = Some i → spin_step e s = Running s' →
  let um := mach s in
  let a := R um (regA i) in
  let b := R um (regB i) in
  let c := R um (regC i) in
  (bits 28 4 i = 2 →
     heap_contents (mach s') =
     <[a := <[N.to_nat b := c]> (segment um a)]> (heap_contents um)) ∧
  (bits 28 4 i = 8 →
     heap_contents (mach s') =
     <[NextHeap um := replicate (N.to_nat c) 0]> (heap_contents um)) ∧
  (bits 28 4 i = 9 → heap_contents (mach s') = delete c (heap_contents um)) ∧
  (bits 28 4 i = 12 →
     heap_contents (mach s') =
     if decide (b = 0) then heap_contents um
     else <[0 := segment um b]> (heap_contents um)) ∧
  (bits 28 4 i ∉ [2; 8; 9; 12] → heap_contents (mach s') = heap_contents um).
Proof.
  intros (Hheap & _ & Halias) Hfetch. rewrite (step_select e s i Hfetch). cbv zeta.
  set (um1 := set_ExFinger (ExFinger (mach s) + 1) (mach s)).
  assert (heap_contents um1 = heap_contents (mach s)) as <- by done.
  assert (∀ k, segment um1 k = segment (mach s) k) as Hseg by done.
  assert (∀ r, R um1 r = R (mach s) r) as HR by done.
  intros Hstep. split_and!; intros Hnum.
  - rewrite Hnum in Hstep. cbn [spec_dispatch] in Hstep. unfold_ops.
    destruct (store _ _ _ _) as [a' |] eqn:Hstore; [| done]. injection Hstep as <-.
    um_simpl. rewrite <- !HR, <- Hseg. by apply heap_contents_store.
  - rewrite Hnum in Hstep. cbn [spec_dispatch] in Hstep. unfold_ops.
    rewrite allocateHeapArray_eq in Hstep. injection Hstep as <-. um_simpl.
    by apply heap_contents_new.
  - rewrite Hnum in Hstep. cbn [spec_dispatch] in Hstep. unfold_ops.
    injection Hstep as <-. unfold heap_contents. um_simpl.
    by rewrite fmap_delete.
  - rewrite Hnum in Hstep. cbn [spec_dispatch] in Hstep. unfold_ops.
    rewrite <- !HR. cbv zeta in Hstep.
    destruct (decide (R um1 (regB i) = 0)) as [Hb | Hb].
    + rewrite decide_False in Hstep by naive_solver. by injection Hstep as <-.
    + rewrite decide_True in Hstep by done. injection Hstep as <-. um_simpl.
      rewrite copy_whole, <- Hseg. by apply heap_contents_new.
  - rewrite !not_elem_of_cons in Hnum. destruct Hnum as (H2 & H8 & H9 & H12 & _).
    by_number i; rewrite Hnum in Hstep, H2, H8, H9, H12; try congruence;
      cbn [spec_dispatch] in Hstep; clear Hnum H2 H8 H9 H12; unfold_ops;
      repeat match type of Hstep with
             | context [match ?x with _ => _ end] => destruct x eqn:?
             end; try discriminate; injection Hstep as <-; try done.
    all: apply heap_contents_same; um_simpl; try done; apply backup_slices.
Qed.

(** ** The program the loop executes *)

Lemma fetch_programHeap s i : fetch s = Some i → is_Some (programHeap s).
Proof.
  rewrite fetch_program. case_decide; [done |]. unfold program.
  destruct (programHeap s); [eauto | done].
Qed.

Lemma elems_store a sl j v a' (ph : option loc) :
  store a sl j v = Some a' →
  elems a' ph = if decide (ph = sl) then <[j := v]> (elems a ph) else elems a ph.
Proof.
  intros Hstore. destruct sl as [l |]; [| done].
  case_decide as Hph; [| by apply (store_other _ _ _ _ _ ph Hstore)].
  subst ph. cbn [store] in Hstore. cbn [elems].
  destruct (a !! l) as [x |] eqn:Hx; [| done]. case_decide; [| done].
  injection Hstore as <-. cbn [default from_option id].
  rewrite list_lookup_insert_eq; [done |]. by eapply lookup_lt_Some.
Qed.

(** What an iteration does to the program the loop executes. *)
Lemma program_step e s s' i :
  wf s → fetch s = Some i → spin_step e s = Running s' →
  let um := mach s in
  (bits 28 4 i = 2 →
     program s' =
     if decide (programHeap s = Heap um !! R um (regA i))
     then <[N.to_nat (R um (regB i)) := R um (regC i)]> (program s)
     else program s) ∧
  (bits 28 4 i = 12 →
     program s' =
     if decide (R um (regB i) = 0) then program s else segment um (R um (regB i))) ∧
  (bits 28 4 i ∉ [2; 12] → program s' = program s).
Proof.
  intros (Hheap & Hprog & Halias) Hfetch. rewrite (step_select e s i Hfetch). cbv zeta.
  set (um1 := set_ExFinger (ExFinger (mach s) + 1) (mach s)).
  assert (∀ k, segment um1 k = segment (mach s) k) as Hseg by done.
  assert (∀ r, R um1 r = R (mach s) r) as HR by done.
  intros Hstep. split_and!; intros Hnum.
  - rewrite Hnum in Hstep. cbn [spec_dispatch] in Hstep. unfold_ops.
    destruct (store _ _ _ _) as [a' |] eqn:Hstore; [| done]. injection Hstep as <-.
    unfold program. um_simpl. by apply elems_store.
  - rewrite Hnum in Hstep. cbn [spec_dispatch] in Hstep. unfold_ops.
    rewrite <- !HR. cbv zeta in Hstep.
    destruct (decide (R um1 (regB i) = 0)) as [Hb | Hb].
    + rewrite decide_False in Hstep by naive_solver. by injection Hstep as <-.
    + rewrite decide_True in Hstep by done. injection Hstep as <-.
      unfold program. um_simpl.
      by rewrite lookup_insert_eq, elems_app_new, copy_whole.
  - rewrite !not_elem_of_cons in Hnum. destruct Hnum as (H2 & H12 & _).
    by_number i; rewrite Hnum in Hstep, H2, H12; try congruence;
      cbn [spec_dispatch] in Hstep; clear Hnum H2 H12; unfold_ops;
      rewrite ?allocateHeapArray_eq in Hstep;
      repeat match type of Hstep with
             | context [match ?x with _ => _ end] => destruct x eqn:?
             end; try discriminate; injection Hstep as <-; try done.
    all: unfold program; um_simpl;
      rewrite ?(proj2 (backup_slices e um1)); try done.
    by apply elems_app_l.
Qed.

Lemma coherent_or_detached_insert h a l k :
  wf_slices h a (Some l) → Some l = h !! 0 ∨ (∀ k, h !! k ≠ Some l) →
  let h' := <[k := length a]> h in
  (Some l = h' !! 0 ∨ ∀ k, h' !! k ≠ Some l) ∧
  (Some l = h' !! 0 ↔ Some l = h !! 0 ∧ k ≠ 0).
Proof.
  intros (Hheap & Hprog & Halias) Hcd h'. subst h'.
  pose proof (Hprog l eq_refl) as Hl.
  assert (∀ k', k' ≠ 0 → h !! 0 = Some l → <[k:=length a]> h !! k' ≠ Some l) as Hother.
  { intros k' Hk' H0. destruct (decide (k' = k)) as [-> | Hne].
    - rewrite lookup_insert_eq. intros [= ?]. lia.
    - rewrite lookup_insert_ne by done. intros Hk. by apply Hk', (Halias k' 0 l). }
  destruct (decide (k = 0)) as [-> | Hk].
  - rewrite lookup_insert_eq. split; [right | split; [intros [= ?]; lia | naive_solver]].
    intros k'. destruct (decide (k' = 0)) as [-> | Hne].
    + rewrite lookup_insert_eq. intros [= ?]. lia.
    + rewrite lookup_insert_ne by done. destruct Hcd as [H0 | Hd]; [| apply Hd].
      intros Hk. by apply Hne, (Halias k' 0 l).
  - rewrite (lookup_insert_ne h k 0) by done. split; [| naive_solver].
    destruct Hcd as [H0 | Hd]; [by left | right].
    intros k'. destruct (decide (k' = k)) as [-> | Hne].
    + rewrite lookup_insert_eq. intros [= ?]. lia.
    + rewrite lookup_insert_ne by done. apply Hd.
Qed.

Lemma coherent_or_detached_delete h a l k :
  wf_slices h a (Some l) → Some l = h !! 0 ∨ (∀ k, h !! k ≠ Some l) →
  let h' := delete k h in
  (Some l = h' !! 0 ∨ ∀ k, h' !! k ≠ Some l) ∧
  (Some l = h' !! 0 ↔ Some l = h !! 0 ∧ k ≠ 0).
Proof.
  intros (Hheap & Hprog & Halias) Hcd h'. subst h'.
  destruct (decide (k = 0)) as [-> | Hk].
  - rewrite lookup_delete_eq. split; [right | naive_solver].
    intros k' Hk'. apply lookup_delete_Some in Hk' as [Hne Hk'].
    destruct Hcd as [H0 | Hd]; [| by apply (Hd k')].
    by apply Hne, (Halias 0 k' l).
  - rewrite (lookup_delete_ne h k 0) by done. split; [| naive_solver].
    destruct Hcd as [H0 | Hd]; [by left | right].
    intros k' Hk'. apply lookup_delete_Some in Hk' as [_ Hk']. by apply (Hd k').
Qed.

Lemma coherent_or_detached s l :
  programHeap s = Some l →
  (coherent s ∨ detached s) ↔
  (Some l = Heap (mach s) !! 0 ∨ ∀ k, Heap (mach s) !! k ≠ Some l).
Proof.
  intros Hl. unfold coherent, detached. rewrite Hl. split.
  - intros [? | (l' & [= <-] & ?)]; eauto.
  - intros [? | ?]; eauto.
Qed.

(** An iteration leaves the loop executing segment 0 or an array without an
    identifier; it executes segment 0 afterwards when the instruction was a
    Load Program with a non-zero register B, or when it executed segment 0
    before and the instruction was no Allocation with the counter at zero
    and no Abandonment of the identifier 0. *)
Lemma coherence_step e s s' i :
  wf s → coherent s ∨ detached s → fetch s = Some i → spin_step e s = Running s' →
  let um := mach s in
  (coherent s' ∨ detached s') ∧
  (coherent s' ↔
     (bits 28 4 i = 12 ∧ R um (regB i) ≠ 0) ∨
     (coherent s ∧ ¬ (bits 28 4 i = 8 ∧ NextHeap um = 0) ∧
      ¬ (bits 28 4 i = 9 ∧ R um (regC i) = 0))).
Proof.
  intros Hwf Hcd Hfetch. rewrite (step_select e s i Hfetch). cbv zeta.
  destruct (fetch_programHeap s i Hfetch) as [l Hl].
  rewrite (coherent_or_detached s l Hl) in Hcd.
  set (um1 := set_ExFinger (ExFinger (mach s) + 1) (mach s)).
  assert (∀ r, R um1 r = R (mach s) r) as HR by done.
  assert (coherent s ↔ Some l = Heap (mach s) !! 0) as Hc
    by (unfold coherent; by rewrite Hl).
  unfold wf in Hwf. rewrite Hl in Hwf. rewrite Hc.
  assert (∀ um', Heap um' = Heap (mach s) →
            let s' := {| mach := um'; programHeap := Some l |} in
            (coherent s' ∨ detached s') ∧ (coherent s' ↔ Some l = Heap (mach s) !! 0))
    as Hsame.
  { intros um' HH s0. rewrite (coherent_or_detached s0 l eq_refl).
    unfold coherent. subst s0. um_simpl. by rewrite HH. }
  by_number i; rewrite Hnum; cbn [spec_dispatch]; clear Hnum; unfold_ops;
    rewrite ?allocateHeapArray_eq, ?Hl; intros Hstep;
    repeat match type of Hstep with
           | context [match ?x with _ => _ end] => destruct x eqn:?
           end; try discriminate; injection Hstep as <-.
  all: try solve
    [ match goal with
      | |- context [backup ?e0 ?u] =>
          destruct (Hsame (backup e0 u) (proj1 (backup_slices e0 u))) as [H1 H2]
      | |- context [coherent {| mach := ?u; programHeap := _ |}] =>
          destruct (Hsame u eq_refl) as [H1 H2]
      end;
      split; [exact H1 |]; rewrite H2;
      split;
      [ intros H0; right; split_and!;
        [exact H0 | intros [? _]; discriminate | intros [? _]; discriminate]
      | intros [[? _] | (H0 & _)]; [discriminate | exact H0] ] ].
  - (* Allocation *)
    destruct (coherent_or_detached_insert _ _ l (NextHeap (mach s)) Hwf Hcd) as [H1 H2].
    match goal with
    | |- context [coherent ?s0] => rewrite (coherent_or_detached s0 l eq_refl)
    end. unfold coherent. um_simpl.
    split; [exact H1 |]. etrans; [exact H2 |]. naive_solver.
  - (* Abandonment *)
    destruct (coherent_or_detached_delete _ _ l (R (mach s) (regC i)) Hwf Hcd) as [H1 H2].
    match goal with
    | |- context [coherent ?s0] => rewrite (coherent_or_detached s0 l eq_refl)
    end. unfold coherent. um_simpl.
    split; [exact H1 |]. etrans; [exact H2 |]. naive_solver.
  - (* Load Program *)
    rewrite <- (HR (regB i)). case_decide as Hb; injection Heqp as <- <-.
    + split; [by left |]. unfold coherent. um_simpl. naive_solver.
    + destruct (Hsame um1 eq_refl) as [H1 H2]. split; [exact H1 |].
      etrans; [exact H2 |]. naive_solver.
Qed.

(** X6.  As long as the loop executes segment 0, the instruction it fetches
    is the platter of segment 0 under the finger, also after the program
    amended itself or loaded another segment.  Two instructions end this: an
    Abandonment of the identifier 0, and an Allocation when the counter is
    zero, which puts a new segment under the identifier 0; after either the
    loop goes on executing the array it executed before, which no identifier
    names any more. *)
Theorem program_is_segment_0 (e : Env) (s s' : SpinState) (i : platter) :
  wf s → coherent s → fetch s = Some i → spin_step e s = Running s' →
  let um := mach s in
  program s = segment um 0 ∧
  (coherent s' ↔
     ¬ (bits 28 4 i = 8 ∧ NextHeap um = 0) ∧
     ¬ (bits 28 4 i = 9 ∧ R um (regC i) = 0)) ∧
  (coherent s' → program s' = segment (mach s') 0) ∧
  (¬ coherent s' → detached s' ∧ program s' = program s).
Proof.
  intros Hwf Hc Hfetch Hstep um.
  destruct (coherence_step e s s' i Hwf (or_introl Hc) Hfetch Hstep) as [Hcd Hiff].
  destruct (program_step e s s' i Hwf Hfetch Hstep) as (_ & _ & Hprog).
  assert (∀ s0, coherent s0 → program s0 = segment (mach s0) 0) as Hseg
    by (intros s0 H0; unfold program, segment; by rewrite H0).
  split_and!; [by apply Hseg | | by apply Hseg |].
  - rewrite Hiff. split; [| naive_solver].
    intros [[H12 _] | (_ & ? & ?)]; [| done]. rewrite H12. naive_solver.
  - intros Hnot. split; [by destruct Hcd |]. apply Hprog.
    rewrite !not_elem_of_cons. rewrite Hiff in Hnot.
    split_and!; [| | apply not_elem_of_nil]; intros Hnum; apply Hnot.
    + right. rewrite Hnum. naive_solver.
    + destruct (decide (R um (regB i) = 0)); [right | left; done].
      rewrite Hnum. naive_solver.
Qed.

(** X7.  Once the loop executes an array that no identifier names, no
    instruction changes that program but a Load Program with a non-zero
    register B, after which the loop executes segment 0 again. *)
Theorem detached_until_load (e : Env) (s s' : SpinState) (i : platter) :
  wf s → detached s → fetch s = Some i → spin_step e s = Running s' →
  (coherent s' ↔ bits 28 4 i = 12 ∧ R (mach s) (regB i) ≠ 0) ∧
  (¬ coherent s' → detached s' ∧ program s' = program s).
Proof.
  intros Hwf Hd Hfetch Hstep.
  destruct (coherence_step e s s' i Hwf (or_intror Hd) Hfetch Hstep) as [Hcd Hiff].
  destruct (program_step e s s' i Hwf Hfetch Hstep) as (H2 & H12 & Hprog).
  assert (¬ coherent s) as Hnc.
  { destruct Hd as (l & Hl & Hnone). unfold coherent. rewrite Hl.
    intros H0. by apply (Hnone 0). }
  split; [rewrite Hiff; naive_solver |].
  intros Hnot. split; [by destruct Hcd |].
  destruct (decide (bits 28 4 i = 2)) as [Hnum | Hne2].
  - rewrite (H2 Hnum). rewrite decide_False; [done |].
    destruct Hd as (l & Hl & Hnone). rewrite Hl. intros Heq.
    by apply (Hnone (R (mach s) (regA i))).
  - destruct (decide (bits 28 4 i = 12)) as [Hnum | Hne12].
    + rewrite (H12 Hnum). rewrite decide_True; [done |].
      apply dec_stable. intros Hb. apply Hnot, Hiff. by left.
    + apply Hprog. rewrite !not_elem_of_cons. split_and!; [done.. | apply not_elem_of_nil].
Qed.

(** ** States the program cannot tell apart *)

Lemma alike_outcome e1 e2 s1 s2 :
  consoleIn e1 = consoleIn e2 → wf s1 → wf s2 → alike s1 s2 →
  match spin_step e1 s1, spin_step e2 s2 with
  | Running s1', Running s2' =>
      Gpr (mach s1') = Gpr (mach s2') ∧ NextHeap (mach s1') = NextHeap (mach s2') ∧
      ExFinger (mach s1') = ExFinger (mach s2') ∧
      heap_contents (mach s1') = heap_contents (mach s2') ∧
      ∃ out, consoleOut (mach s1') = consoleOut (mach s1) ++ out ∧
             consoleOut (mach s2') = consoleOut (mach s2) ++ out
  | Halted um1 r1, Halted um2 r2 =>
      r1 = r2 ∧ consoleOut um1 = consoleOut (mach s1) ∧
      consoleOut um2 = consoleOut (mach s2)
  | Panic, Panic => True
  | _, _ => False
  end.
Proof.
  intros Hin (Hheap1 & _ & Halias1) (Hheap2 & _ & Halias2)
    (HG & HN & HF & Hhc & Hprog & _).
  assert (fetch s1 = fetch s2) as Hfetch by (by rewrite !fetch_program, HF, Hprog).
  unfold spin_step. rewrite Hfetch. destruct (fetch s2) as [i |]; [| done].
  rewrite !dispatch_select.
  assert (∀ k, elems (arrays (mach s1)) (Heap (mach s1) !! k)
               = elems (arrays (mach s2)) (Heap (mach s2) !! k)) as Hseg.
  { intros k. pose proof (segment_heap_contents (mach s1) k) as H1.
    pose proof (segment_heap_contents (mach s2) k) as H2.
    unfold segment in H1, H2. by rewrite H1, H2, Hhc. }
  pose proof Hhc as Hhc'. unfold heap_contents in Hhc'.
  by_number i; rewrite Hnum; cbn [spec_dispatch]; clear Hnum; unfold_ops;
    rewrite ?allocateHeapArray_eq; unfold R, index; um_simpl;
    rewrite ?Hin, ?HG, ?HN, ?HF, ?Hseg.
  all: try (repeat case_decide; unfold heap_contents; um_simpl;
            rewrite ?HG, ?HN, ?HF;
            solve [done | split_and!; try done; exists []; by rewrite !app_nil_r]).
  - (* Array Index *)
    destruct (_ !! N.to_nat _); [| done]. um_simpl. rewrite ?HG, ?HN, ?HF.
    split_and!; try done. exists []. by rewrite !app_nil_r.
  - (* Array Amendment *)
    set (a := Gpr (mach s2) !!! regA i). set (j := N.to_nat _). set (v := _ !!! regC i).
    pose proof (store_None (arrays (mach s1)) (Heap (mach s1) !! a) j v) as Hn1.
    pose proof (store_None (arrays (mach s2)) (Heap (mach s2) !! a) j v) as Hn2.
    rewrite Hseg in Hn1.
    destruct (store (arrays (mach s1)) _ j v) as [a1 |] eqn:Hst1,
      (store (arrays (mach s2)) _ j v) as [a2 |] eqn:Hst2;
      [| by pose proof (proj2 Hn1 (proj1 Hn2 eq_refl))
       | by pose proof (proj2 Hn2 (proj1 Hn1 eq_refl)) | done].
    um_simpl. rewrite ?HG, ?HN, ?HF. split_and!; try done.
    + etrans; [by apply (heap_contents_store (mach s1) _ a j v) |].
      etrans; [| symmetry; by apply (heap_contents_store (mach s2) _ a j v)].
      unfold segment. by rewrite Hseg, Hhc.
    + exists []. by rewrite !app_nil_r.
  - (* Allocation *)
    split_and!; try done.
    + etrans; [by apply (heap_contents_new (mach s1)) |].
      etrans; [| symmetry; by apply (heap_contents_new (mach s2))].
      by rewrite Hhc.
    + exists []. by rewrite !app_nil_r.
  - (* Abandonment *)
    split_and!; try done.
    + unfold heap_contents. um_simpl. by rewrite !fmap_delete, Hhc'.
    + exists []. by rewrite !app_nil_r.
  - (* Output *)
    split_and!; try done. eauto.
  - (* Input *)
    destruct (backup_frame e1 (set_ExFinger (ExFinger (mach s2) + 1) (mach s1)))
      as (Hb1G & Hb1H & Hb1N & Hb1F & Hb1a & Hb1c & _).
    destruct (backup_frame e2 (set_ExFinger (ExFinger (mach s2) + 1) (mach s2)))
      as (Hb2G & Hb2H & Hb2N & Hb2F & Hb2a & Hb2c & _).
    destruct (err (consoleIn e2)) as [[| msg] |]; case_decide;
      unfold heap_contents; um_simpl;
      rewrite ?Hb1G, ?Hb2G, ?Hb1N, ?Hb2N, ?Hb1F, ?Hb2F, ?Hb1c, ?Hb2c, ?Hb1H, ?Hb2H,
        ?Hb1a, ?Hb2a; um_simpl; rewrite ?HG, ?HN;
      (split_and!; try done; exists []; by rewrite !app_nil_r).
  - (* Load Program *)
    case_decide as Hb; um_simpl; rewrite ?HG; (split_and!; try done);
      try (exists []; by rewrite !app_nil_r).
    etrans; [by apply (heap_contents_new (mach s1)) |].
    etrans; [| symmetry; by apply (heap_contents_new (mach s2))].
    unfold segment. um_simpl. by rewrite Hseg, Hhc.
Qed.

Lemma running_fetch e s s' : spin_step e s = Running s' → ∃ i, fetch s = Some i.
Proof. unfold spin_step. destruct (fetch s); [eauto | done]. Qed.

Lemma amendment_segment e s s' i :
  fetch s = Some i → bits 28 4 i = 2 → spin_step e s = Running s' →
  is_Some (Heap (mach s) !! R (mach s) (regA i)).
Proof.
  intros Hfetch Hnum. rewrite (step_select e s i Hfetch), Hnum.
  cbn [spec_dispatch]. unfold_ops. um_simpl.
  change (R (set_ExFinger (ExFinger (mach s) + 1) (mach s)) (regA i))
    with (R (mach s) (regA i)).
  destruct (Heap (mach s) !! R (mach s) (regA i)); [eauto | done].
Qed.

Lemma program_alias s a :
  sound s → is_Some (Heap (mach s) !! a) →
  programHeap s = Heap (mach s) !! a ↔ coherent s ∧ a = 0.
Proof.
  intros [(_ & _ & Halias) Hcd] [l Hl]. unfold coherent. split.
  - intros Hph. destruct Hcd as [Hc | (l' & Hl' & Hnone)].
    + unfold coherent in Hc. split; [done |].
      apply (Halias a 0 l); congruence.
    + destruct (Hnone a). congruence.
  - by intros [-> ->].
Qed.

Lemma sound_step e s s' : sound s → spin_step e s = Running s' → sound s'.
Proof.
  intros [Hwf Hcd] Hstep. destruct (running_fetch e s s' Hstep) as [i Hfetch].
  split; [by eapply wf_step |].
  by destruct (coherence_step e s s' i Hwf Hcd Hfetch Hstep).
Qed.

Lemma alike_step e1 e2 s1 s2 s1' s2' :
  consoleIn e1 = consoleIn e2 → sound s1 → sound s2 → alike s1 s2 →
  spin_step e1 s1 = Running s1' → spin_step e2 s2 = Running s2' →
  alike s1' s2'.
Proof.
  intros Hin Hs1 Hs2 Halike Hstep1 Hstep2.
  pose proof (alike_outcome e1 e2 s1 s2 Hin (proj1 Hs1) (proj1 Hs2) Halike) as Hout.
  rewrite Hstep1, Hstep2 in Hout. destruct Hout as (HG' & HN' & HF' & Hhc' & _).
  destruct Halike as (HG & HN & HF & Hhc & Hprog & Hc).
  destruct (running_fetch e1 s1 s1' Hstep1) as [i Hfetch1].
  assert (fetch s2 = Some i) as Hfetch2
    by (by rewrite fetch_program, <- HF, <- Hprog, <- fetch_program).
  assert (∀ r, R (mach s1) r = R (mach s2) r) as HR by (intros r; unfold R; by rewrite HG).
  assert (∀ k, segment (mach s1) k = segment (mach s2) k) as Hseg
    by (intros k; by rewrite !segment_heap_contents, Hhc).
  destruct (coherence_step e1 s1 s1' i (proj1 Hs1) (proj2 Hs1) Hfetch1 Hstep1)
    as [_ Hc1].
  destruct (coherence_step e2 s2 s2' i (proj1 Hs2) (proj2 Hs2) Hfetch2 Hstep2)
    as [_ Hc2].
  destruct (program_step e1 s1 s1' i (proj1 Hs1) Hfetch1 Hstep1) as (P1a & P1l & P1o).
  destruct (program_step e2 s2 s2' i (proj1 Hs2) Hfetch2 Hstep2) as (P2a & P2l & P2o).
  cbv zeta in *.
  split_and!; try done.
  - destruct (decide (bits 28 4 i = 2)) as [Hnum | Hne2].
    + rewrite (P1a Hnum), (P2a Hnum), !HR, Hprog.
      pose proof (amendment_segment e1 s1 s1' i Hfetch1 Hnum Hstep1) as Hsome1.
      pose proof (amendment_segment e2 s2 s2' i Hfetch2 Hnum Hstep2) as Hsome2.
      apply (program_alias s1 _ Hs1) in Hsome1.
      apply (program_alias s2 _ Hs2) in Hsome2. rewrite HR in Hsome1.
      repeat case_decide; naive_solver.
    + destruct (decide (bits 28 4 i = 12)) as [Hnum | Hne12].
      * by rewrite (P1l Hnum), (P2l Hnum), !HR, Hprog, Hseg.
      * rewrite P1o, P2o; [done | |];
          rewrite !not_elem_of_cons; (split_and!; [done.. | apply not_elem_of_nil]).
  - rewrite Hc1, Hc2, !HR, HN, Hc. done.
Qed.

Lemma alike_run es1 : ∀ es2 s1 s2,
  consoleIn <$> es1 = consoleIn <$> es2 → sound s1 → sound s2 → alike s1 s2 →
  match spin_in es1 s1, spin_in es2 s2 with
  | Running s1', Running s2' =>
      sound s1' ∧ sound s2' ∧ alike s1' s2' ∧
      ∃ out, consoleOut (mach s1') = consoleOut (mach s1) ++ out ∧
             consoleOut (mach s2') = consoleOut (mach s2) ++ out
  | Halted um1 r1, Halted um2 r2 =>
      r1 = r2 ∧
      ∃ out, consoleOut um1 = consoleOut (mach s1) ++ out ∧
             consoleOut um2 = consoleOut (mach s2) ++ out
  | Panic, Panic => True
  | _, _ => False
  end.
Proof.
  induction es1 as [| e1 es1 IH]; intros [| e2 es2] s1 s2 Hes Hs1 Hs2 Halike;
    try discriminate.
  - cbn [spin_in]. split_and!; try done. exists []. by rewrite !app_nil_r.
  - injection Hes as Hin Hes. cbn [spin_in].
    pose proof (alike_outcome e1 e2 s1 s2 Hin (proj1 Hs1) (proj1 Hs2) Halike) as Hout.
    destruct (spin_step e1 s1) as [s1' | um1 r1 |] eqn:Hstep1,
      (spin_step e2 s2) as [s2' | um2 r2 |] eqn:Hstep2; try done.
    + destruct Hout as (_ & _ & _ & _ & out & Ho1 & Ho2).
      specialize (IH es2 s1' s2' Hes (sound_step _ _ _ Hs1 Hstep1)
                    (sound_step _ _ _ Hs2 Hstep2)
                    (alike_step _ _ _ _ _ _ Hin Hs1 Hs2 Halike Hstep1 Hstep2)).
      rewrite Ho1, Ho2 in IH.
      destruct (spin_in es1 s1'), (spin_in es2 s2'); try done.
      * destruct IH as (? & ? & ? & out' & -> & ->). split_and!; try done.
        exists (out ++ out'). by rewrite !(assoc_L (++)).
      * destruct IH as (? & out' & -> & ->). split; [done |].
        exists (out ++ out'). by rewrite !(assoc_L (++)).
    + destruct Hout as (-> & -> & ->). split; [done |].
      exists []. by rewrite !app_nil_r.
Qed.

Lemma written_app before out o um :
  final o = Some um → consoleOut um = before ++ out → written before o = Some out.
Proof.
  intros Hf Hout. unfold written. rewrite Hf. cbn [fmap option_fmap option_map].
  by rewrite Hout, drop_app_length.
Qed.

Lemma alike_observed es1 es2 s1 s2 :
  consoleIn <$> es1 = consoleIn <$> es2 → sound s1 → sound s2 → alike s1 s2 →
  ending (spin_in es1 s1) = ending (spin_in es2 s2) ∧
  written (consoleOut (mach s1)) (spin_in es1 s1)
  = written (consoleOut (mach s2)) (spin_in es2 s2).
Proof.
  intros Hes Hs1 Hs2 Halike.
  pose proof (alike_run es1 es2 s1 s2 Hes Hs1 Hs2 Halike) as Hrun.
  destruct (spin_in es1 s1) as [s1' | um1 r1 |], (spin_in es2 s2) as [s2' | um2 r2 |];
    try done.
  - destruct Hrun as (_ & _ & _ & out & Ho1 & Ho2). split; [done |].
    by rewrite (written_app _ out (Running s1') (mach s1') eq_refl Ho1),
      (written_app _ out (Running s2') (mach s2') eq_refl Ho2).
  - destruct Hrun as (-> & out & Ho1 & Ho2). split; [done |].
    by rewrite (written_app _ out (Halted um1 r2) um1 eq_refl Ho1),
      (written_app _ out (Halted um2 r2) um2 eq_refl Ho2).
Qed.

Lemma alike_refl s : alike s s.
Proof. by unfold alike. Qed.

(** X8.  What a program does depends on the registers, the counter, the
    finger, the contents of the segments, the program, and on whether the
    program the loop executes is segment 0 itself or an array without an
    identifier.  Two sound machines that agree on all of these, the last
    included, whatever the addresses of their arrays, their earlier output,
    their backup folders and their checkpoints, and that are given the same
    console input, end in the same way after any number of iterations, with
    the same error if they halt, and write the same bytes; as long as they
    run they still agree.  The clock and the success of the file operations
    have no influence. *)
Theorem alike_states_behave_alike (es1 es2 : list Env) (s1 s2 : SpinState) :
  consoleIn <$> es1 = consoleIn <$> es2 → sound s1 → sound s2 → alike s1 s2 →
  ending (spin_in es1 s1) = ending (spin_in es2 s2) ∧
  written (consoleOut (mach s1)) (spin_in es1 s1)
  = written (consoleOut (mach s2)) (spin_in es2 s2) ∧
  ∀ s1' s2', spin_in es1 s1 = Running s1' → spin_in es2 s2 = Running s2' →
    sound s1' ∧ sound s2' ∧ alike s1' s2'.
Proof.
  intros Hes Hs1 Hs2 Halike.
  destruct (alike_observed es1 es2 s1 s2 Hes Hs1 Hs2 Halike) as [He Hw].
  split_and!; [done | done |]. intros s1' s2' H1 H2.
  pose proof (alike_run es1 es2 s1 s2 Hes Hs1 Hs2 Halike) as Hrun.
  rewrite H1, H2 in Hrun. naive_solver.
Qed.

(** X9.  A machine restored from the snapshot an Input instruction wrote
    carries on like the machine that wrote it.  When the slices of the state
    are well formed, the loop executes segment 0, a program with the length
    of a slice (an [int]), and fetches an Input, and that iteration adds a
    snapshot to the disk, be it equal to an earlier one or not,
    [LoadFromBackup] of the snapshot into a new machine succeeds, and the
    loop started on it behaves as the loop of the original does from that
    Input on, given the same console input: the same ending, the same error,
    the same bytes written. *)
Theorem restored_machine_resumes (e : Env) (s : SpinState) (i : platter)
    (um' : UniversalMachine) (d : list FsEvent) (w : Snapshot) (folder : string)
    (es1 es2 : list Env) :
  wf s → coherent s → (Z.of_nat (length (program s)) < 2 ^ 63)%Z →
  fetch s = Some i → bits 28 4 i = 11 →
  final (spin_step e s) = Some um' →
  disk um' = disk (mach s) ++ d → TempFileWritten w ∈ d →
  consoleIn <$> es1 = consoleIn <$> es2 →
  ∃ r, LoadFromBackup (Some w) (New folder) = Some r ∧
    ending (spin_in es1 s) = ending (spin_in es2 (spin_init r)) ∧
    written (consoleOut (mach s)) (spin_in es1 s)
    = written [] (spin_in es2 (spin_init r)).
Proof.
  intros Hwf Hc Hlen Hfetch Hnum Hfinal Hdisk Hin Hes.
  destruct (restore_rewinds_to_input e s i d w folder Hfetch Hnum um' Hfinal Hdisk Hin)
    as (r & Hload & HG & Hhc & HN & HF).
  specialize (HF Hlen).
  exists r. split; [done |].
  assert (wf_slices (Heap r) (arrays r) None) as Hwfr.
  { injection Hload as <-. um_simpl.
    destruct (gob_decode_entries (sHeap w) (set_Gpr (sGpr w) (New folder)))
      as (Hwfd & _); [apply wf_slices_empty |].
    unfold gob_decode. by destruct (sNextHeap w), (sExFinger w). }
  assert (consoleOut r = []) as Hout.
  { injection Hload as <-. um_simpl. unfold gob_decode.
    assert (∀ es u, consoleOut (foldl gob_decode_entry u es) = consoleOut u) as Hfold
      by (induction es as [| kv es IH]; intros u; [done | cbn [foldl]; by rewrite IH]).
    destruct (sNextHeap w), (sExFinger w); cbn [from_option]; um_simpl;
      by rewrite Hfold. }
  assert (sound (spin_init r)) as Hsr.
  { split; [by apply wf_spin_init | by left]. }
  assert (alike s (spin_init r)) as Halike.
  { unfold alike. um_simpl. split_and!; try done.
    unfold program, spin_init. um_simpl. rewrite Hc.
    fold (segment (mach s) 0). fold (segment r 0).
    by rewrite !segment_heap_contents, Hhc. }
  destruct (alike_observed es1 es2 s (spin_init r) Hes (conj Hwf (or_introl Hc))
              Hsr Halike) as [He Hw].
  split; [done |]. rewrite Hw. unfold spin_init at 1. um_simpl. by rewrite Hout.
Qed.

(** ** The console, the disk and the finger *)

(** X10.  An Output writes one byte to the console, the low eight bits of
    register C, and no other instruction writes anything; only an Input
    touches the disk and the time of the last checkpoint; the backup folder
    never changes; the finger moves to the next platter, except that a Load
    Program sets it to the value of register C. *)
Theorem step_frame (e : Env) (s : SpinState) (i : platter) (um' : UniversalMachine) :
  fetch s = Some i → final (spin_step e s) = Some um' →
  let um := mach s in
  consoleOut um' =
    consoleOut um ++
    (if decide (bits 28 4 i = 10) then [uint8 (R um (regC i))] else []) ∧
  Byte.to_N (uint8 (R um (regC i))) = R um (regC i) mod 256 ∧
  (bits 28 4 i ≠ 11 → disk um' = disk um ∧ lastBackup um' = lastBackup um) ∧
  backupFolder um' = backupFolder um ∧
  ExFinger um' =
    if decide (bits 28 4 i = 12) then Z.of_N (R um (regC i))
    else (ExFinger um + 1)%Z.
Proof.
  intros Hfetch. rewrite (step_select e s i Hfetch). cbv zeta.
  set (um1 := set_ExFinger (ExFinger (mach s) + 1) (mach s)).
  destruct (backup_frame e um1) as (_ & _ & _ & HbF & _ & Hbc & Hbf).
  intros Hfinal. split_and!; [| apply to_N_uint8 | | |].
  all: revert Hfinal;
    by_number i; rewrite Hnum; cbn [spec_dispatch]; clear Hnum; unfold_ops;
    rewrite ?allocateHeapArray_eq; intros Hfinal;
    repeat match type of Hfinal with
           | context [match ?x with _ => _ end] => destruct x eqn:?
           end; try discriminate; try (injection Hfinal as <-);
    repeat match goal with
           | H : (_, _) = (_, _) |- _ => injection H as <- <-
           end;
    rewrite ?decide_True by done; rewrite ?decide_False by done;
    um_simpl; rewrite ?HbF, ?Hbc, ?Hbf, ?app_nil_r; try done.
  all: match goal with
       | H : (if decide ?P then _ else _) = (_, _) |- _ =>
           destruct (decide P); injection H as <- <-
       end; by um_simpl.
Qed.

(** ** Amendment and Index *)

(** X11.  An Array Index that follows an Array Amendment and names the same
    segment and offset reads the value that was stored: the Amendment
    succeeds only inside the segment, and the Index of that platter does not
    panic. *)
Theorem amendment_then_index (e e' : Env) (s s1 : SpinState) (i i' : platter) :
  fetch s = Some i → bits 28 4 i = 2 → spin_step e s = Running s1 →
  fetch s1 = Some i' → bits 28 4 i' = 1 →
  regB i' = regA i → regC i' = regB i →
  ∃ s2, spin_step e' s1 = Running s2 ∧
        R (mach s2) (regA i') = R (mach s) (regC i).
Proof.
  intros Hfetch Hnum Hstep Hfetch' Hnum' HB HC.
  rewrite (step_select e s i Hfetch), Hnum in Hstep.
  rewrite (step_select e' s1 i' Hfetch'), Hnum'.
  cbn [spec_dispatch] in *. unfold_ops. rewrite HB, HC.
  set (um1 := set_ExFinger (ExFinger (mach s) + 1) (mach s)) in *.
  destruct (store _ _ _ _) as [a' |] eqn:Hstore; [| done]. injection Hstep as <-.
  unfold index, R in *. um_simpl.
  rewrite (elems_store _ _ _ _ _ (Heap (mach s) !! (Gpr (mach s) !!! regA i)) Hstore).
  rewrite decide_True by done.
  assert (N.to_nat (Gpr (mach s) !!! regB i)
          < length (elems (arrays (mach s)) (Heap (mach s) !! (Gpr (mach s) !!! regA i))))%nat
    as Hlt.
  { apply Nat.nle_gt. intros Hle.
    apply (store_None _ _ _ (Gpr (mach s) !!! regC i)) in Hle.
    unfold um1 in Hstore. um_simpl. by rewrite Hstore in Hle. }
  rewrite list_lookup_insert_eq by done.
  eexists. split; [reflexivity |]. um_simpl. apply vlookup_insert.
Qed.

(** ** Loading into a machine that is not new *)

(** X12.  [LoadProgram] stores what it read under the value of the counter,
    which is zero in a new machine only: a second program, or a program
    loaded after a backup, becomes the segment of that identifier, and every
    other segment, segment 0 among them unless the counter is zero, the
    registers and the finger stay as they are. *)
Theorem LoadProgram_any_machine (p : Stream) (um um' : UniversalMachine) :
  wf_slices (Heap um) (arrays um) None → NextHeap um < 2 ^ 32 →
  LoadProgram p um = (um', None) →
  let image := platters (bytes_read p) in
  heap_contents um' =
    <[NextHeap um := take (N.to_nat (wrap32 (N.of_nat (length image)))) image]>
      (heap_contents um) ∧
  NextHeap um' = wrap32 (NextHeap um + 1) ∧
  Gpr um' = Gpr um ∧ ExFinger um' = ExFinger um ∧ consoleOut um' = consoleOut um ∧
  wf_slices (Heap um') (arrays um') None.
Proof.
  intros Hwf Hn. pose proof Hwf as (Hheap & _ & _). unfold LoadProgram.
  destruct (read_error p); [done |].
  destruct (binary_Read _ _) as [program |] eqn:Hread; [| done].
  assert (program = platters (bytes_read p)) as ->.
  { assert (length (bytes_read p) `mod` 4 = 0)%nat as Hmod.
    { apply dec_stable. intros Hne. apply binary_Read_short in Hne. congruence. }
    unfold binary_Read in Hread. case_decide as Hlen; [done |]. injection Hread as <-.
    apply take_ge. rewrite (length_platters (numPlatters (bytes_read p))); [done |].
    unfold numPlatters in *.
    pose proof (Nat.div_mod_eq (length (bytes_read p) + 3) 4).
    pose proof (Nat.mod_upper_bound (length (bytes_read p) + 3) 4).
    pose proof (Nat.div_mod_eq (length (bytes_read p)) 4).
    generalize dependent ((length (bytes_read p) + 3) `div` 4)%nat.
    generalize dependent ((length (bytes_read p) + 3) `mod` 4)%nat.
    generalize dependent (length (bytes_read p) `div` 4)%nat.
    intros. lia. }
  rewrite allocateHeapArray_eq, sub32_succ by done. um_simpl.
  rewrite lookup_insert_eq. intros [= <-]. um_simpl. cbv zeta.
  set (image := platters (bytes_read p)).
  set (len := wrap32 (N.of_nat (length image))).
  match goal with
  | |- context [set_arrays ?x (set_NextHeap _ _)] =>
      replace x with (arrays um ++ [take (N.to_nat len) image])
  end.
  2: { rewrite list_lookup_middle by done. cbn [default from_option id].
    rewrite copy_make.
    - by rewrite insert_app_r_alt, Nat.sub_diag by done.
    - pose proof (wrap32_le (N.of_nat (length image))). unfold len. lia. }
  split_and!; try done.
  - by apply heap_contents_new.
  - by apply (proj1 (wf_slices_new _ _ None _ _ Hwf)).
Qed.

(** ** The first checkpoint *)

Lemma Since_zeroTime now :
  (zeroTime + 15 * Minute < now)%Z →
  (Minute <? Since now zeroTime)%Z = true ∧ (15 * Minute <? Since now zeroTime)%Z = true.
Proof.
  unfold Since, Minute, zeroTime. intros Hnow. split; apply Z.ltb_lt; lia.
Qed.

(** X13.  A machine made by [New], also after [LoadProgram] or
    [LoadFromBackup], has the zero time as the time of its last checkpoint.
    With a backup folder, the first Input that finds it so, at any time of
    the clock later than a quarter of an hour after the zero time, takes a
    checkpoint with an archive copy, whatever the time since the machine
    started: the duration since the zero time saturates.  The snapshot goes
    to the temporary file, then to the archive, then the temporary file is
    renamed. *)
Theorem first_checkpoint_archives :
  (∀ folder, lastBackup (New folder) = zeroTime ∧ backupFolder (New folder) = folder) ∧
  (∀ p um um' result, LoadProgram p um = (um', result) →
     lastBackup um' = lastBackup um ∧ backupFolder um' = backupFolder um) ∧
  (∀ w um um', LoadFromBackup (Some w) um = Some um' →
     lastBackup um' = lastBackup um ∧ backupFolder um' = backupFolder um) ∧
  (∀ e um,
     lastBackup um = zeroTime → backupFolder um ≠ "" →
     (zeroTime + 15 * Minute < clock_gate e)%Z →
     (zeroTime + 15 * Minute < clock_archive e)%Z →
     tempfile_ok e = true → encode_ok e = true → create_ok e = true →
     disk (backup e um) =
       disk um ++ [TempFileWritten (gob_encode um);
                   ArchiveWritten (clock_name e) (gob_encode um);
                   if rename_ok e then Renamed else RenameFailed] ∧
     lastBackup (backup e um) = clock_done e).
Proof.
  split_and!.
  - done.
  - intros p um um' result. unfold LoadProgram.
    destruct (read_error p); [by intros [= <- _] |].
    destruct (binary_Read _ _); [| by intros [= <- _]].
    rewrite allocateHeapArray_eq. um_simpl.
    destruct (_ !! _); by intros [= <- _].
  - intros w um um' [= <-]. um_simpl. unfold gob_decode.
    assert (∀ es d, lastBackup (foldl gob_decode_entry d es) = lastBackup d ∧
                    backupFolder (foldl gob_decode_entry d es) = backupFolder d) as Hfold.
    { induction es as [| kv es IH]; intros d; [done |].
      cbn [foldl]. by destruct (IH (gob_decode_entry d kv)) as [-> ->]. }
    destruct (Hfold (sHeap w) (set_Gpr (sGpr w) um)) as [Hl Hf].
    by destruct (sNextHeap w), (sExFinger w); cbn [from_option]; um_simpl.
  - intros e um Hlast Hfolder Hgate Harch Htmp Henc Hcreate. unfold backup.
    rewrite decide_True by done. rewrite Hlast.
    rewrite (proj1 (Since_zeroTime _ Hgate)), (proj2 (Since_zeroTime _ Harch)).
    unfold doBackup. rewrite Htmp, Henc, Hcreate. cbn [negb andb]. um_simpl.
    by rewrite <- !(assoc_L (++)).
Qed.

(** ** The states of a run are sound *)

Lemma sound_spin_init um : wf_slices (Heap um) (arrays um) None → sound (spin_init um).
Proof. intros Hwf. split; [by apply wf_spin_init | by left]. Qed.

Lemma wf_slices_None h a ph : wf_slices h a ph → wf_slices h a None.
Proof. intros (? & _ & ?). by split_and!. Qed.

Lemma sound_spin_in es : ∀ s s', sound s → spin_in es s = Running s' → sound s'.
Proof.
  induction es as [| e es IH]; intros s s' Hs; cbn [spin_in]; [by intros [= <-] |].
  destruct (spin_step e s) as [s1 | |] eqn:Hstep; [| done..].
  apply IH. by eapply sound_step.
Qed.

(** X14.  In every state of a run, from a program loaded into a new machine
    or from a backup loaded into a new machine, every slice of the heap and
    the slice of the loop refer to an array that was made, no two
    identifiers share an array, and the loop executes segment 0 or an array
    without an identifier. *)
Theorem sound_along_runs :
  (∀ folder p um, LoadProgram p (New folder) = (um, None) → sound (spin_init um)) ∧
  (∀ folder w r, LoadFromBackup (Some w) (New folder) = Some r → sound (spin_init r)) ∧
  (∀ e s s', sound s → spin_step e s = Running s' → sound s') ∧
  (∀ es s s', sound s → spin_in es s = Running s' → sound s').
Proof.
  split_and!.
  - intros folder p um Hload. apply sound_spin_init.
    by apply (wf_slices_None _ _ _ (wf_spin_init_New folder p um Hload)).
  - intros folder w r [= <-]. apply sound_spin_init. um_simpl.
    destruct (gob_decode_entries (sHeap w) (set_Gpr (sGpr w) (New folder)))
      as (Hwf & _); [apply wf_slices_empty |].
    unfold gob_decode. by destruct (sNextHeap w), (sExFinger w).
  - apply sound_step.
  - intros es. apply sound_spin_in.
Qed.

(** ** The properties at work *)

Lemma sound_iterate n e : ∀ s, sound s → sound (iterate n e s).
Proof.
  induction n as [| n IH]; intros s Hs; [done |].
  cbn [iterate]. destruct (spin_step e s) as [s' | |] eqn:Hstep; [| done..].
  eauto using sound_step.
Qed.

Lemma sound_load_New folder p um :
  LoadProgram p (New folder) = (um, None) → sound (spin_init um).
Proof.
  intros Hload. apply sound_spin_init.
  by apply (wf_slices_None _ _ _ (wf_spin_init_New folder p um Hload)).
Qed.

(** The Not-And of 12 and 10. *)
Lemma arithmetic_operators_witness :
  let s := at_nand in
  let s' := iterate 1 quiet_env at_nand in
  let i := std 6 0 1 2 in
  R (mach s') (regA i) < 2 ^ 32 ∧
  ∀ n, n < 32 →
    N.testbit (R (mach s') (regA i)) n =
    negb (N.testbit (R (mach s) (regB i)) n && N.testbit (R (mach s) (regC i)) n).
Proof.
  intros s s' i.
  refine (proj2 (proj2 (proj2 (proj2 (arithmetic_operators quiet_env s s' i _ _)))) _);
    vm_compute; reflexivity.
Defined.

(** The Array Amendment of [store_program]. *)
Lemma heap_effect_witness :
  let s := at_amendment in
  let s' := iterate 1 quiet_env at_amendment in
  let i := std 2 1 5 3 in
  heap_contents (mach s') =
  <[R (mach s) (regA i) :=
      <[N.to_nat (R (mach s) (regB i)) := R (mach s) (regC i)]>
        (segment (mach s) (R (mach s) (regA i)))]> (heap_contents (mach s)).
Proof.
  intros s s' i.
  refine (proj1 (heap_effect quiet_env s s' i _ _ _) _).
  - apply wf_iterate, (wf_spin_init_New "" (program_file store_program)).
    vm_compute; reflexivity.
  - vm_compute; reflexivity.
  - vm_compute; reflexivity.
  - vm_compute; reflexivity.
Defined.

(** The Input of the echo program. *)
Lemma program_is_segment_0_witness :
  let s := at_input in
  let s' := iterate 1 quiet_env at_input in
  program s = segment (mach s) 0 ∧ program s' = segment (mach s') 0.
Proof.
  intros s s'.
  destruct (program_is_segment_0 quiet_env s s' 0xB0000000) as (H0 & Hiff & H1 & _).
  - apply wf_iterate, (wf_spin_init_New "" (program_file echo_program)).
    vm_compute; reflexivity.
  - vm_compute; reflexivity.
  - vm_compute; reflexivity.
  - vm_compute; reflexivity.
  - split; [exact H0 |]. apply H1, Hiff.
    split; intros [Hnum _]; vm_compute in Hnum; discriminate.
Defined.

(** The Orthography that follows the Abandonment of the program. *)
Lemma detached_until_load_witness :
  let s := after_abandonment in
  let s' := iterate 1 quiet_env after_abandonment in
  ¬ coherent s' ∧ detached s' ∧ program s' = program s.
Proof.
  intros s s'.
  destruct (detached_until_load quiet_env s s' 0xD0000041) as (Hiff & Hnot).
  - apply wf_iterate, (wf_spin_init_New "" (program_file abandon_program)).
    vm_compute; reflexivity.
  - exists 0%nat. split; [vm_compute; reflexivity |].
    replace (Heap (mach s)) with (∅ : gmap N loc) by (vm_compute; reflexivity).
    intros k. by rewrite lookup_empty.
  - vm_compute; reflexivity.
  - vm_compute; reflexivity.
  - assert (¬ coherent s') as Hnc.
    { intros Hc. apply Hiff in Hc as [Hnum _]. vm_compute in Hnum. discriminate. }
    split; [exact Hnc |]. exact (Hnot Hnc).
Defined.

(** The echo program in a machine without and in a machine with a backup
    folder, at different times of the clock. *)
Lemma alike_states_behave_alike_witness :
  let s1 := load echo_program in
  let s2 := spin_init (LoadProgram (program_file echo_program) (New "/backup")).1 in
  let es1 := [quiet_env; quiet_env; quiet_env; quiet_env] in
  let es2 := [late_env; late_env; late_env; late_env] in
  ending (spin_in es1 s1) = ending (spin_in es2 s2) ∧
  written (consoleOut (mach s1)) (spin_in es1 s1)
  = written (consoleOut (mach s2)) (spin_in es2 s2).
Proof.
  intros s1 s2 es1 es2.
  destruct (alike_states_behave_alike es1 es2 s1 s2) as (He & Hw & _).
  - vm_compute; reflexivity.
  - apply (sound_load_New "" (program_file echo_program)). vm_compute; reflexivity.
  - apply (sound_load_New "/backup" (program_file echo_program)). vm_compute; reflexivity.
  - unfold alike. split_and!; try (vm_compute; reflexivity).
    split; intros _; vm_compute; reflexivity.
  - split; [exact He | exact Hw].
Defined.

(** The echo machine with a backup folder takes its first checkpoint at its
    Input; the machine restored from it and the original read 'B', write it
    and halt. *)
Lemma restored_machine_resumes_witness :
  let s := at_input_with_folder in
  let w := gob_encode (set_ExFinger 2 (mach s)) in
  let es1 := [quiet_env; quiet_env; quiet_env] in
  let es2 := [late_env; late_env; late_env] in
  ∃ r, LoadFromBackup (Some w) (New "") = Some r ∧
    ending (spin_in es1 s) = ending (spin_in es2 (spin_init r)) ∧
    written (consoleOut (mach s)) (spin_in es1 s)
    = written [] (spin_in es2 (spin_init r)).
Proof.
  intros s w es1 es2.
  apply (restored_machine_resumes first_env s 0xB0000000
           (default (mach s) (final (spin_step first_env s)))
           (disk (default (mach s) (final (spin_step first_env s)))) w "" es1 es2).
  - apply wf_iterate, (wf_spin_init_New "/backup" (program_file echo_program)).
    vm_compute; reflexivity.
  - vm_compute; reflexivity.
  - vm_compute; reflexivity.
  - vm_compute; reflexivity.
  - vm_compute; reflexivity.
  - vm_compute; reflexivity.
  - vm_compute; reflexivity.
  - vm_compute. apply list_elem_of_here.
  - vm_compute; reflexivity.
Defined.

(** The Output of the echo program. *)
Lemma step_frame_witness :
  let s := at_output in
  let um' := mach (iterate 1 quiet_env at_output) in
  let i := 0xA0000000 in
  consoleOut um' = consoleOut (mach s) ++ [uint8 (R (mach s) (regC i))] ∧
  disk um' = disk (mach s) ∧ ExFinger um' = (ExFinger (mach s) + 1)%Z.
Proof.
  intros s um' i.
  destruct (step_frame quiet_env s i um') as (Hout & _ & Hdisk & _ & Hfinger).
  - vm_compute; reflexivity.
  - vm_compute; reflexivity.
  - split; [exact Hout |]. split; [| exact Hfinger].
    apply Hdisk. vm_compute. discriminate.
Defined.

(** The Array Amendment and the Array Index of [store_program]. *)
Lemma amendment_then_index_witness :
  let s := at_amendment in
  let s1 := iterate 1 quiet_env at_amendment in
  ∃ s2, spin_step quiet_env s1 = Running s2 ∧
        R (mach s2) (regA (std 1 2 1 5)) = R (mach s) (regC (std 2 1 5 3)).
Proof.
  intros s s1.
  apply (amendment_then_index quiet_env quiet_env s s1 (std 2 1 5 3) (std 1 2 1 5));
    vm_compute; reflexivity.
Defined.

(** The copy program loaded into the machine that holds the echo program. *)
Lemma LoadProgram_any_machine_witness :
  let um := echo_machine in
  let um' := (LoadProgram (program_file copy_program) echo_machine).1 in
  let image := platters (bytes_read (program_file copy_program)) in
  heap_contents um' =
    <[NextHeap um := take (N.to_nat (wrap32 (N.of_nat (length image)))) image]>
      (heap_contents um) ∧
  NextHeap um' = wrap32 (NextHeap um + 1).
Proof.
  intros um um' image.
  destruct (LoadProgram_any_machine (program_file copy_program) um um')
    as (Hheap & Hnext & _).
  - apply (wf_slices_None _ _ (Heap um !! 0)),
      (wf_spin_init_New "" (program_file echo_program)).
    vm_compute; reflexivity.
  - vm_compute; reflexivity.
  - vm_compute; reflexivity.
  - split; [exact Hheap | exact Hnext].
Defined.

(** ** Every read of the console *)

(** X15.  What an Input leaves in register C for every read that does not
    fail: at the end of the input 0xFFFFFFFF, also when the read delivered a
    byte with it; else the byte, if one was delivered; else, for a read that
    delivers nothing and reports nothing, the value the register had.  The
    other registers keep their values and the loop goes on with the same
    program. *)
Theorem input_all_reads (e : Env) (s : SpinState) (i : platter) :
  fetch s = Some i → bits 28 4 i = 11 →
  err (consoleIn e) = None ∨ err (consoleIn e) = Some EOF →
  ∃ s', spin_step e s = Running s' ∧ programHeap s' = programHeap s ∧
    R (mach s') (regC i) =
      match err (consoleIn e) with
      | Some _ => 0xffffffff
      | None =>
          if decide (count (consoleIn e) = 1%Z) then Byte.to_N (ip0 (consoleIn e))
          else R (mach s) (regC i)
      end ∧
    ∀ r, r ≠ regC i → R (mach s') r = R (mach s) r.
Proof.
  intros Hfetch Hnum Herr. rewrite (input_step e s i Hfetch Hnum).
  unfold op_input, continue.
  set (um1 := set_ExFinger (ExFinger (mach s) + 1) (mach s)).
  assert (∀ r, R (backup e um1) r = R (mach s) r) as HR
    by (intros r; unfold R; by rewrite backup_Gpr).
  destruct Herr as [-> | ->]; eexists; (split; [reflexivity |]); um_simpl;
    (split; [done |]); case_decide;
    rewrite ?setR_same, ?HR; (split; [done |]); intros r Hr;
    rewrite ?setR_other by done; apply HR.
Qed.

(** ** Nothing to execute *)

Lemma spin_init_empty e um : segment um 0 = [] → spin_step e (spin_init um) = Panic.
Proof.
  intros Hseg. unfold spin_step.
  assert (fetch (spin_init um) = None) as ->; [| done].
  rewrite fetch_program. case_decide; [done |].
  unfold program, spin_init. um_simpl. fold (segment um 0). by rewrite Hseg.
Qed.

(** X16.  The loop started on a machine whose segment 0 is missing or empty
    panics in its first iteration: so it does on a new machine into which
    nothing was loaded, and after [LoadProgram] of an empty stream, which
    reports no error. *)
Theorem nothing_to_execute :
  (∀ e um, segment um 0 = [] → spin_step e (spin_init um) = Panic) ∧
  (∀ e folder, spin_step e (spin_init (New folder)) = Panic) ∧
  (∀ e folder p,
     bytes_read p = [] → read_error p = None →
     ∃ um, LoadProgram p (New folder) = (um, None) ∧
           spin_step e (spin_init um) = Panic).
Proof.
  split_and!.
  - apply spin_init_empty.
  - intros e folder. by apply spin_init_empty.
  - intros e folder [data result]. cbn [bytes_read read_error]. intros -> ->.
    eexists. split; [reflexivity |]. by apply spin_init_empty.
Qed.

(** ** A snapshot holds the segments, not the program *)

(** X17.  The snapshot an Input writes holds the segments and not the array
    the loop executes.  The machine restored from a snapshot the iteration
    of an Input adds to the disk, be it equal to an earlier one or not,
    executes what segment 0 held when the snapshot was taken; when the
    program had abandoned segment 0 before, the restored machine panics in
    its first iteration, while the original goes on. *)
Theorem restore_executes_segment_0 (e e' : Env) (s : SpinState) (i : platter)
    (um' : UniversalMachine) (d : list FsEvent) (w : Snapshot) (folder : string) :
  fetch s = Some i → bits 28 4 i = 11 →
  final (spin_step e s) = Some um' →
  disk um' = disk (mach s) ++ d → TempFileWritten w ∈ d →
  ∃ r, LoadFromBackup (Some w) (New folder) = Some r ∧
    program (spin_init r) = segment (mach s) 0 ∧
    (Heap (mach s) !! 0 = None → spin_step e' (spin_init r) = Panic).
Proof.
  intros Hfetch Hnum Hfinal Hdisk Hin.
  destruct (restore_rewinds_to_input e s i d w folder Hfetch Hnum um' Hfinal Hdisk Hin)
    as (r & Hload & _ & Hhc & _).
  exists r. split; [done |].
  assert (segment r 0 = segment (mach s) 0) as Hseg
    by (by rewrite !segment_heap_contents, Hhc).
  split; [done |].
  intros Hnone. apply spin_init_empty. rewrite Hseg. unfold segment. by rewrite Hnone.
Qed.

(** A read that delivers nothing and reports nothing leaves 'A' in register
    0 of the echo machine. *)
Lemma input_all_reads_witness :
  ∃ s', spin_step empty_read_env at_input = Running s' ∧
        R (mach s') (regC 0xB0000000) = R (mach at_input) (regC 0xB0000000).
Proof.
  destruct (input_all_reads empty_read_env at_input 0xB0000000)
    as (s' & Hstep & _ & HR & _).
  - vm_compute; reflexivity.
  - vm_compute; reflexivity.
  - left. reflexivity.
  - exists s'. split; [exact Hstep |]. exact HR.
Defined.

(** The machine that abandoned its program takes a checkpoint at its Input
    and goes on; the machine restored from the checkpoint panics. *)
Lemma restore_executes_segment_0_witness :
  let s := at_input_detached in
  let w := gob_encode (set_ExFinger 2 (mach s)) in
  (∃ s', spin_step first_env s = Running s') ∧
  ∃ r, LoadFromBackup (Some w) (New "") = Some r ∧
       spin_step quiet_env (spin_init r) = Panic.
Proof.
  intros s w. split; [eexists; vm_compute; reflexivity |].
  destruct (restore_executes_segment_0 first_env quiet_env s 0xB0000000
              (default (mach s) (final (spin_step first_env s)))
              (disk (default (mach s) (final (spin_step first_env s)))) w "")
    as (r & Hload & _ & Hpanic).
  - vm_compute; reflexivity.
  - vm_compute; reflexivity.
  - vm_compute; reflexivity.
  - vm_compute; reflexivity.
  - vm_compute. apply list_elem_of_here.
  - exists r. split; [exact Hload |]. apply Hpanic. vm_compute; reflexivity.
Defined.
